(** * CityHash (C port, cityhash.c): a shallow embedding and its properties

    The C functions of [cityhash.c] are embedded as Rocq functions over [Z].
    - [uint64_t] and [size_t] values are integers in [0, 2^64) and every
      arithmetic operation writes its wrap-around out ([add64], [mul64], ...).
    - A [const uint8_t*] is a pointer into a byte buffer ([ptr]); a read
      outside the buffer, or through [NULL], is a fault.
    - Code that can fault (a load, [rotate64] with its assertion and its
      shifts) lives in the monad [M], which also records the shift amount of
      every [rotate64] call, in call order.
    - Loops are run with fuel; the theorems show the fuel handed out by the
      entry points is never exhausted.
    - Where C leaves the order of evaluation of the operands of an
      expression open, they are evaluated from left to right.
    - [hash_128_to_64] (from [cityhash.h]) and [_mm_crc32_u64] (the processor)
      are parameters; reference instances are given to run examples. *)

From Stdlib Require Import ZArith List Bool Lia.
From Stdlib Require Import Init.Byte.
From Stdlib Require Strings.Byte.
Import ListNotations.
Local Open Scope Z_scope.

(** ** Machine arithmetic *)

Definition wrap64 (n : Z) : Z := n mod 2 ^ 64.
Definition wrap32 (n : Z) : Z := n mod 2 ^ 32.

Definition add64 (m n : Z) : Z := wrap64 (m + n).
Definition sub64 (m n : Z) : Z := wrap64 (m - n).
Definition mul64 (m n : Z) : Z := wrap64 (m * n).
(** [m << n] and [m >> n] on [uint64_t], for a constant [0 <= n < 64]. *)
Definition shl64 (m n : Z) : Z := wrap64 (Z.shiftl m n).
Definition shr64 (m n : Z) : Z := Z.shiftr m n.
(** [~m] on a 64-bit and on a 32-bit unsigned value. *)
Definition not64 (m : Z) : Z := wrap64 (Z.lnot m).
Definition not32 (m : Z) : Z := wrap32 (Z.lnot m).
(** Conversion of a [size_t] to [signed long] (two's complement, LP64). *)
Definition to_signed64 (m : Z) : Z := if m <? 2 ^ 63 then m else m - 2 ^ 64.

Declare Scope u64_scope.
Delimit Scope u64_scope with u64.
Infix "+%" := add64 (at level 50, left associativity) : u64_scope.
Infix "-%" := sub64 (at level 50, left associativity) : u64_scope.
Infix "*%" := mul64 (at level 40, left associativity) : u64_scope.
Infix "^%" := Z.lxor (at level 60, right associativity) : u64_scope.
Local Open Scope u64_scope.

(** ** Faults, traces and the monad *)

Inductive fault : Type :=
| OutOfBounds      (* a read outside the buffer or through NULL; NULL given to memcpy *)
| AssertFailed     (* assert(...) does not hold *)
| UndefinedShift   (* a shift by the full register width or more *)
| OutOfFuel.       (* the loop bound of the model was too small *)

(** A run either returns a value together with the shift amounts passed to
    [rotate64] so far, or stops at the first fault. *)
Inductive M (A : Type) : Type :=
| Ok (a : A) (shifts : list Z)
| Fault (e : fault).
Arguments Ok {A} a shifts.
Arguments Fault {A} e.

Definition ret {A} (a : A) : M A := Ok a [].

Definition bind {A B} (m : M A) (k : A -> M B) : M B :=
  match m with
  | Ok a t1 => match k a with
               | Ok b t2 => Ok b (t1 ++ t2)
               | Fault e => Fault e
               end
  | Fault e => Fault e
  end.

Notation "x <- m ;; k" := (bind m (fun x => k))
  (at level 100, m at next level, right associativity).
Notation "' pat <- m ;; k" := (bind m (fun x => match x with pat => k end))
  (at level 100, pat pattern, m at next level, right associativity).

Definition assert (c : bool) : M unit := if c then ret tt else Fault AssertFailed.
Definition note_shift (shift : Z) : M unit := Ok tt [shift].

(** ** Buffers and loads *)

Inductive ptr : Type :=
| NULL
| At (mem : list byte) (off : Z).

Definition padd (p : ptr) (k : Z) : ptr :=
  match p with
  | NULL => NULL
  | At mem off => At mem (off + k)
  end.
Infix "+p" := padd (at level 50, left associativity).

Definition byte_at (p : ptr) (i : Z) : option byte :=
  match p with
  | NULL => None
  | At mem off => if 0 <=? off + i then nth_error mem (Z.to_nat (off + i)) else None
  end.

(** [p[i]] as a [uint8_t]. *)
Definition load8 (p : ptr) (i : Z) : M Z :=
  match byte_at p i with
  | Some c => ret (Z.of_N (Strings.Byte.to_N c))
  | None => Fault OutOfBounds
  end.

(** [memcpy(&result, p, n)] read back on a little-endian host. *)
Fixpoint load_le (n : nat) (p : ptr) : M Z :=
  match n with
  | O => ret 0
  | S n' => c <- load8 p 0 ;; r <- load_le n' (p +p 1) ;; ret (c + 256 * r)
  end.

Definition uload64 (p : ptr) : M Z := load_le 8 p.
Definition uload32 (p : ptr) : M Z := load_le 4 p.

(** [LITTLE_ENDIAN] is defined on the targets of the port (the SSE4.2 part
    needs x86-64), so [uint64_t_in_expected_order] is the identity. *)
Definition fetch64 (p : ptr) : M Z := uload64 p.
Definition fetch32 (p : ptr) : M Z := uload32 p.

(** ** Primitives *)

Definition k0 : Z := 0xc3a5c85c97cb3127.
Definition k1 : Z := 0xb492b66fbe98f273.
Definition k2 : Z := 0x9ae16a3b2f90404f.
Definition k3 : Z := 0xc949d7c7509e6557.

(** The C shift operators with a run-time amount: the behaviour is undefined
    unless the amount is below the width of the operand. *)
Definition shr (val n : Z) : M Z :=
  if (0 <=? n) && (n <? 64) then ret (shr64 val n) else Fault UndefinedShift.
Definition shl (val n : Z) : M Z :=
  if (0 <=? n) && (n <? 64) then ret (shl64 val n) else Fault UndefinedShift.

(** [rotate64]: [assert(shift < 64); return (val >> shift) | (val << (64 - shift));]
    Every call records its shift amount. *)
Definition rotate64 (val shift : Z) : M Z :=
  _ <- assert (shift <? 64) ;;
  _ <- note_shift shift ;;
  hi <- shr val shift ;;
  lo <- shl val (64 - shift) ;;
  ret (Z.lor hi lo).

Definition smix (val : Z) : Z := val ^% shr64 val 47.

Record uint128_t : Type := mk128 { u128_a : Z; u128_b : Z }.
Record uint256_t : Type :=
  mk256 { u256_a : Z; u256_b : Z; u256_c : Z; u256_d : Z }.

(** The five registers of the long paths. *)
Record regs : Type :=
  mkregs { rx : Z; ry : Z; rz : Z; rv : uint128_t; rw : uint128_t }.

(** [weak_hash_32_with_seeds] *)
Definition weak_hash_32_with_seeds (w x y z a b : Z) : M uint128_t :=
  let a := a +% w in
  b <- rotate64 (b +% a +% z) 21 ;;
  let c := a in
  let a := a +% x in
  let a := a +% y in
  r <- rotate64 a 44 ;;
  let b := b +% r in
  ret (mk128 (a +% z) (b +% c)).

(** [weak_hash_32_with_seeds_raw] *)
Definition weak_hash_32_with_seeds_raw (s : ptr) (a b : Z) : M uint128_t :=
  w <- fetch64 s ;;
  x <- fetch64 (s +p 8) ;;
  y <- fetch64 (s +p 16) ;;
  z <- fetch64 (s +p 24) ;;
  weak_hash_32_with_seeds w x y z a b.

(** The register seeding of [cityhash64] for strings over 64 bytes
    (the statements before the loop). *)
Definition cityhash64_init (s : ptr) (len : Z) : M regs :=
  x <- fetch64 s ;;
  y0 <- fetch64 (s +p (len - 16)) ;;
  let y := y0 ^% k1 in
  z0 <- fetch64 (s +p (len - 56)) ;;
  let z := z0 ^% k0 in
  v <- weak_hash_32_with_seeds_raw (s +p (len - 64)) len y ;;
  w <- weak_hash_32_with_seeds_raw (s +p (len - 32)) (len *% k1) k0 ;;
  let z := z +% smix (u128_b v) *% k1 in
  r <- rotate64 (z +% x) 39 ;;
  let x := r *% k1 in
  r <- rotate64 y 33 ;;
  let y := r *% k1 in
  ret (mkregs x y z v w).

(** One 64-byte block step: the body of the loop of [cityhash64], which
    [cityhash128_with_seed] repeats twice per iteration, up to [s += 64]. *)
Definition mix_block (s : ptr) (st : regs) : M regs :=
  let '(mkregs x y z v w) := st in
  c <- fetch64 (s +p 16) ;;
  r <- rotate64 (x +% y +% u128_a v +% c) 37 ;;
  let x := r *% k1 in
  c <- fetch64 (s +p 48) ;;
  r <- rotate64 (y +% u128_b v +% c) 42 ;;
  let y := r *% k1 in
  let x := x ^% u128_b w in
  let y := y ^% u128_a v in
  z <- rotate64 (z ^% u128_a w) 33 ;;
  v' <- weak_hash_32_with_seeds_raw s (u128_b v *% k1) (x +% u128_a w) ;;
  w' <- weak_hash_32_with_seeds_raw (s +p 32) (z +% u128_b w) y ;;
  (* swap64(&z, &x) *)
  ret (mkregs z y x v' w').

(** [len = (len - 1) & ~((size_t)63)] *)
Definition truncated_len (len : Z) : Z := Z.land (len -% 1) (not64 63).

(** [do { block; s += 64; len -= 64; } while (len != 0);] *)
Fixpoint cityhash64_loop (fuel : nat) (s : ptr) (len : Z) (st : regs) : M regs :=
  match fuel with
  | O => Fault OutOfFuel
  | S fuel' =>
      st' <- mix_block s st ;;
      let s := s +p 64 in
      let len := len -% 64 in
      if len =? 0 then ret st' else cityhash64_loop fuel' s len st'
  end.

(** [hash_33_to_64] *)
Definition hash_33_to_64 (s : ptr) (len : Z) : M Z :=
  z <- fetch64 (s +p 24) ;;
  c0 <- fetch64 s ;;
  c1 <- fetch64 (s +p (len - 16)) ;;
  let a := c0 +% (len +% c1) *% k0 in
  b <- rotate64 (a +% z) 52 ;;
  c <- rotate64 a 37 ;;
  c0 <- fetch64 (s +p 8) ;;
  let a := a +% c0 in
  r <- rotate64 a 7 ;;
  let c := c +% r in
  c0 <- fetch64 (s +p 16) ;;
  let a := a +% c0 in
  let vf := a +% z in
  r <- rotate64 a 31 ;;
  let vs := b +% r +% c in
  c0 <- fetch64 (s +p 16) ;;
  c1 <- fetch64 (s +p (len - 32)) ;;
  let a := c0 +% c1 in
  z <- fetch64 (s +p (len - 8)) ;;
  b <- rotate64 (a +% z) 52 ;;
  c <- rotate64 a 37 ;;
  c0 <- fetch64 (s +p (len - 24)) ;;
  let a := a +% c0 in
  r <- rotate64 a 7 ;;
  let c := c +% r in
  c0 <- fetch64 (s +p (len - 16)) ;;
  let a := a +% c0 in
  let wf := a +% z in
  r <- rotate64 a 31 ;;
  let ws := b +% r +% c in
  let r := smix ((vf +% ws) *% k2 +% (wf +% vs) *% k0) in
  ret (smix (r *% k0 +% vs) *% k2).

Section CityHash.

(** [hash_128_to_64] is declared in [cityhash.h], which is not part of the
    sources: the functions below take it as a parameter. *)
Variable hash_128_to_64 : uint128_t -> Z.

(** [hash_16] *)
Definition hash_16 (u v : Z) : Z := hash_128_to_64 (mk128 u v).

(** [hash_0_to_16] *)
Definition hash_0_to_16 (s : ptr) (len : Z) : M Z :=
  if 8 <? len then
    a <- fetch64 s ;;
    b <- fetch64 (s +p (len - 8)) ;;
    r <- rotate64 (b +% len) len ;;
    ret (hash_16 a r ^% b)
  else if 4 <=? len then
    a <- fetch32 s ;;
    c <- fetch32 (s +p (len - 4)) ;;
    ret (hash_16 (len +% shl64 a 3) c)
  else if 0 <? len then
    a <- load8 s 0 ;;
    b <- load8 s (shr64 len 1) ;;
    c <- load8 s (len - 1) ;;
    let y := wrap32 (a + Z.shiftl b 8) in
    let z := wrap32 (len + Z.shiftl c 2) in
    ret (smix ((y *% k2) ^% (z *% k3)) *% k2)
  else ret k2.

(** [hash_17_to_32] *)
Definition hash_17_to_32 (s : ptr) (len : Z) : M Z :=
  c0 <- fetch64 s ;;
  let a := c0 *% k1 in
  b <- fetch64 (s +p 8) ;;
  c0 <- fetch64 (s +p (len - 8)) ;;
  let c := c0 *% k2 in
  c0 <- fetch64 (s +p (len - 16)) ;;
  let d := c0 *% k0 in
  r1 <- rotate64 (a -% b) 43 ;;
  r2 <- rotate64 c 30 ;;
  r3 <- rotate64 (b ^% k3) 20 ;;
  ret (hash_16 (r1 +% r2 +% d) (a +% r3 -% c +% len)).

(** The [return] statement of [cityhash64] after the loop. *)
Definition cityhash64_final (st : regs) : Z :=
  let '(mkregs x y z v w) := st in
  hash_16 (hash_16 (u128_a v) (u128_a w) +% smix y *% k1 +% z)
          (hash_16 (u128_b v) (u128_b w) +% x).

(** [cityhash64] *)
Definition cityhash64 (s : ptr) (len : Z) : M Z :=
  if len <=? 32 then
    if len <=? 16 then hash_0_to_16 s len else hash_17_to_32 s len
  else if len <=? 64 then hash_33_to_64 s len
  else
    st <- cityhash64_init s len ;;
    let len' := truncated_len len in
    st <- cityhash64_loop (Z.to_nat len) s len' st ;;
    ret (cityhash64_final st).

(** [cityhash64_with_seeds] *)
Definition cityhash64_with_seeds (s : ptr) (len seed0 seed1 : Z) : M Z :=
  h <- cityhash64 s len ;;
  ret (hash_16 (h -% seed0) seed1).

(** [cityhash64_with_seed] *)
Definition cityhash64_with_seed (s : ptr) (len seed : Z) : M Z :=
  cityhash64_with_seeds s len k2 seed.

(** The loop of [city_murmur]:
    [do { ...; s += 16; l -= 16; } while (l > 0);] over [(a, b, c, d)]. *)
Fixpoint city_murmur_loop (fuel : nat) (s : ptr) (l : Z) (q : Z * Z * Z * Z)
  : M (Z * Z * Z * Z) :=
  match fuel with
  | O => Fault OutOfFuel
  | S fuel' =>
      let '(a, b, c, d) := q in
      c0 <- fetch64 s ;;
      let a := a ^% (smix (c0 *% k1) *% k1) in
      let a := a *% k1 in
      let b := b ^% a in
      c0 <- fetch64 (s +p 8) ;;
      let c := c ^% (smix (c0 *% k1) *% k1) in
      let c := c *% k1 in
      let d := d ^% c in
      let s := s +p 16 in
      let l := l - 16 in
      if 0 <? l then city_murmur_loop fuel' s l (a, b, c, d)
      else ret (a, b, c, d)
  end.

(** [city_murmur] *)
Definition city_murmur (s : ptr) (len : Z) (seed : uint128_t) : M uint128_t :=
  let a := u128_a seed in
  let b := u128_b seed in
  let l := to_signed64 (len -% 16) in
  '(a, b, c, d) <-
    (if l <=? 0 then
       let a := smix (a *% k1) *% k1 in
       h <- hash_0_to_16 s len ;;
       let c := b *% k1 +% h in
       t <- (if 8 <=? len then fetch64 s else ret c) ;;
       let d := smix (a +% t) in
       ret (a, b, c, d)
     else
       c0 <- fetch64 (s +p (len - 8)) ;;
       let c := hash_16 (c0 +% k1) a in
       c0 <- fetch64 (s +p (len - 16)) ;;
       let d := hash_16 (b +% len) (c +% c0) in
       let a := a +% d in
       city_murmur_loop (Z.to_nat len) s l (a, b, c, d)) ;;
  let a := hash_16 a c in
  let b := hash_16 d b in
  ret (mk128 (a ^% b) (hash_16 b a)).

(** The main loop of [cityhash128_with_seed]:
    [do { block; s += 64; block; s += 64; len -= 128; } while (len >= 128);]
    The pointer and the length it leaves are used by the tail. *)
Fixpoint cityhash128_loop (fuel : nat) (s : ptr) (len : Z) (st : regs)
  : M (ptr * Z * regs) :=
  match fuel with
  | O => Fault OutOfFuel
  | S fuel' =>
      st <- mix_block s st ;;
      let s := s +p 64 in
      st <- mix_block s st ;;
      let s := s +p 64 in
      let len := len -% 128 in
      if 128 <=? len then cityhash128_loop fuel' s len st
      else ret (s, len, st)
  end.

(** The tail of [cityhash128_with_seed]:
    [for (size_t tail_done = 0; tail_done < len;) { tail_done += 32; ... }] *)
Fixpoint cityhash128_tail (fuel : nat) (s : ptr) (len tail_done : Z) (st : regs)
  : M regs :=
  if tail_done <? len then
    match fuel with
    | O => Fault OutOfFuel
    | S fuel' =>
        let '(mkregs x y z v w) := st in
        let tail_done := tail_done +% 32 in
        r <- rotate64 (y -% x) 42 ;;
        let y := r *% k0 +% u128_b v in
        c0 <- fetch64 (s +p (len - tail_done + 16)) ;;
        let wa := u128_a w +% c0 in
        r <- rotate64 x 49 ;;
        let x := r *% k0 +% wa in
        let wa := wa +% u128_a v in
        v <- weak_hash_32_with_seeds_raw (s +p (len - tail_done)) (u128_a v) (u128_b v) ;;
        cityhash128_tail fuel' s len tail_done (mkregs x y z v (mk128 wa (u128_b w)))
    end
  else ret st.

(** [cityhash128_with_seed] *)
Definition cityhash128_with_seed (s : ptr) (len : Z) (seed : uint128_t)
  : M uint128_t :=
  if len <? 128 then city_murmur s len seed
  else
    let x := u128_a seed in
    let y := u128_b seed in
    let z := len *% k1 in
    r <- rotate64 (y ^% k1) 49 ;;
    c0 <- fetch64 s ;;
    let va := r *% k1 +% c0 in
    r <- rotate64 va 42 ;;
    c0 <- fetch64 (s +p 8) ;;
    let vb := r *% k1 +% c0 in
    r <- rotate64 (y +% z) 35 ;;
    let wa := r *% k1 +% x in
    c0 <- fetch64 (s +p 88) ;;
    r <- rotate64 (x +% c0) 53 ;;
    let wb := r *% k1 in
    '(s, len, st) <-
      cityhash128_loop (Z.to_nat len) s len (mkregs x y z (mk128 va vb) (mk128 wa wb)) ;;
    let '(mkregs x y z v w) := st in
    r <- rotate64 (u128_a w) 37 ;;
    let y := y +% (r *% k0 +% z) in
    r <- rotate64 (u128_a v +% z) 49 ;;
    let x := x +% r *% k0 in
    st <- cityhash128_tail (Z.to_nat len) s len 0 (mkregs x y z v w) ;;
    let '(mkregs x y z v w) := st in
    let x := hash_16 x (u128_a v) in
    let y := hash_16 y (u128_a w) in
    ret (mk128 (hash_16 (x +% u128_b v) (u128_b w) +% y)
               (hash_16 (x +% u128_b w) (y +% u128_b v))).

(** [cityhash128] *)
Definition cityhash128 (s : ptr) (len : Z) : M uint128_t :=
  if 16 <=? len then
    c0 <- fetch64 s ;;
    c1 <- fetch64 (s +p 8) ;;
    cityhash128_with_seed (s +p 16) (len - 16) (mk128 (c0 ^% k3) c1)
  else if 8 <=? len then
    c0 <- fetch64 s ;;
    c1 <- fetch64 (s +p (len - 8)) ;;
    cityhash128_with_seed NULL 0 (mk128 (c0 ^% (len *% k0)) (c1 ^% k1))
  else
    cityhash128_with_seed s len (mk128 k0 k1).

(** *** The SSE4.2 family *)

(** [_mm_crc32_u64] is the CRC32 instruction of the processor: the functions
    below take it as a parameter. *)
Variable _mm_crc32_u64 : Z -> Z -> Z.

(** Modelled from the spec: [Rotate] and [Fetch64], which the tail of
    [cityhash256_crc_long] calls, are defined nowhere in the sources.  The
    spec describes this tail as the same pattern as the tail of the 128-bit
    hash, whose helpers are [rotate64] and [fetch64]. *)
Definition Rotate (val shift : Z) : M Z := rotate64 val shift.
Definition Fetch64 (p : ptr) : M Z := fetch64 p.

(** The registers [a .. j] and [t] of [cityhash256_crc_long]. *)
Record crc_regs : Type :=
  mkcrc { ca : Z; cb : Z; cc : Z; cd : Z; ce : Z; ct : Z;
          cf : Z; cg : Z; ch : Z; ci : Z; cj : Z }.

(** The macro [CHUNK(multiplier, z)], up to [s += 40]. *)
Definition CHUNK (multiplier z : Z) (s : ptr) (st : crc_regs) : M crc_regs :=
  let '(mkcrc a b c d e t f g h i j) := st in
  let old_a := a in
  r <- rotate64 b (Z.lxor 41 z) ;;
  c0 <- fetch64 s ;;
  let a := r *% multiplier +% c0 in
  r <- rotate64 c (Z.lxor 27 z) ;;
  c0 <- fetch64 (s +p 8) ;;
  let b := r *% multiplier +% c0 in
  r <- rotate64 d (Z.lxor 41 z) ;;
  c0 <- fetch64 (s +p 16) ;;
  let c := r *% multiplier +% c0 in
  r <- rotate64 e (Z.lxor 33 z) ;;
  c0 <- fetch64 (s +p 24) ;;
  let d := r *% multiplier +% c0 in
  r <- rotate64 t (Z.lxor 25 z) ;;
  c0 <- fetch64 (s +p 32) ;;
  let e := r *% multiplier +% c0 in
  let t := old_a in
  let f := _mm_crc32_u64 f a in
  let g := _mm_crc32_u64 g b in
  let h := _mm_crc32_u64 h c in
  let i := _mm_crc32_u64 i d in
  let j := _mm_crc32_u64 j e in
  ret (mkcrc a b c d e t f g h i j).

(** [do { CHUNK(1, 1); CHUNK(k0, 0); (three times) } while (--iters > 0);] *)
Fixpoint cityhash256_crc_loop (fuel : nat) (s : ptr) (iters : Z) (st : crc_regs)
  : M (ptr * crc_regs) :=
  match fuel with
  | O => Fault OutOfFuel
  | S fuel' =>
      st <- CHUNK 1 1 s st ;;
      let s := s +p 40 in
      st <- CHUNK k0 0 s st ;;
      let s := s +p 40 in
      st <- CHUNK 1 1 s st ;;
      let s := s +p 40 in
      st <- CHUNK k0 0 s st ;;
      let s := s +p 40 in
      st <- CHUNK 1 1 s st ;;
      let s := s +p 40 in
      st <- CHUNK k0 0 s st ;;
      let s := s +p 40 in
      let iters := iters -% 1 in
      if 0 <? iters then cityhash256_crc_loop fuel' s iters st
      else ret (s, st)
  end.

(** The tail of [cityhash256_crc_long], over [a], [c], [d] and [v]. *)
Fixpoint cityhash256_crc_tail (fuel : nat) (s : ptr) (len tail_done : Z)
  (q : Z * Z * Z * uint128_t) : M (Z * Z * Z * uint128_t) :=
  if tail_done <? len then
    match fuel with
    | O => Fault OutOfFuel
    | S fuel' =>
        let '(a, c, d, v) := q in
        let tail_done := tail_done +% 32 in
        r <- Rotate (c -% a) 42 ;;
        let c := r *% k0 +% u128_b v in
        c0 <- Fetch64 (s +p (len - tail_done + 16)) ;;
        let d := d +% c0 in
        r <- Rotate a 49 ;;
        let a := r *% k0 +% d in
        let d := d +% u128_a v in
        v <- weak_hash_32_with_seeds_raw (s +p (len - tail_done)) (u128_a v) (u128_b v) ;;
        cityhash256_crc_tail fuel' s len tail_done (a, c, d, v)
    end
  else ret q.

(** [cityhash256_crc_long] (requires [len >= 240]) *)
Definition cityhash256_crc_long (s : ptr) (len seed : Z) : M uint256_t :=
  c0 <- fetch64 (s +p 56) ;;
  let a := c0 +% k0 in
  c0 <- fetch64 (s +p 96) ;;
  let b := c0 +% k0 in
  let result_b := hash_16 b len in
  let c := result_b in
  c0 <- fetch64 (s +p 120) ;;
  let result_c := c0 *% k0 +% len in
  let d := result_c in
  c0 <- fetch64 (s +p 184) ;;
  let e := c0 +% seed in
  let f := seed in
  let t := c +% d in
  let iters := len / 240 in
  let fuel := Z.to_nat len in
  let len := len -% iters *% 240 in
  '(s, st) <- cityhash256_crc_loop fuel s iters (mkcrc a b c d e t f 0 0 0 0) ;;
  let '(mkcrc a b c d e t f g h i j) := st in
  let j := j +% shl64 i 32 in
  let a := hash_16 a j in
  let h := h +% shl64 g 32 in
  let b := b *% k0 +% h in
  let c := hash_16 c f +% i in
  let d := hash_16 d e in
  let v := mk128 (j +% e) (hash_16 h t) in
  let h := u128_b v +% f in
  '(a, c, d, v) <- cityhash256_crc_tail (Z.to_nat len) s len 0 (a, c, d, v) ;;
  let e := hash_16 a d +% u128_a v in
  let f := hash_16 b c +% a in
  let g := hash_16 (u128_a v) (u128_b v) +% c in
  let result_a := e +% f +% g +% h in
  let a := smix ((a +% g) *% k0) *% k0 +% b in
  let result_b := result_b +% (a +% result_a) in
  let a := smix (a *% k0) *% k0 +% c in
  let result_c := result_c +% (a +% result_b) in
  let a := smix ((a +% e) *% k0) *% k0 in
  let result_d := a +% result_c in
  ret (mk256 result_a result_b result_c result_d).

(** The [n] bytes at [s], read in order. *)
Fixpoint load_bytes (n : nat) (s : ptr) : M (list byte) :=
  match n with
  | O => ret []
  | S n' =>
      match byte_at s 0 with
      | Some c => l <- load_bytes n' (s +p 1) ;; ret (c :: l)
      | None => Fault OutOfBounds
      end
  end.

(** [memcpy(buf, s, n)] into the local buffer of [cityhash256_crc_short]:
    the source must be a valid pointer also when [n] is 0 (a null argument
    is undefined behaviour whatever the length), and the [n] bytes at [s]
    are read. *)
Definition memcpy (n : nat) (s : ptr) : M (list byte) :=
  match s with
  | NULL => Fault OutOfBounds
  | At _ _ => load_bytes n s
  end.

(** [cityhash256_crc_short] (requires [len < 240]) *)
Definition cityhash256_crc_short (s : ptr) (len : Z) : M uint256_t :=
  l <- memcpy (Z.to_nat len) s ;;
  let buf := l ++ repeat x00 (Z.to_nat (240 - len)) in
  cityhash256_crc_long (At buf 0) 240 (not32 (wrap32 len)).

(** [cityhash256_crc] *)
Definition cityhash256_crc (s : ptr) (len : Z) : M uint256_t :=
  if 240 <=? len then cityhash256_crc_long s len 0
  else cityhash256_crc_short s len.

(** The derivation of section 4.6 of the specification, in its words: the
    seed is combined with two of the four output lanes by [hash_16], and the
    remaining two lanes are folded in. *)
Definition fold_lanes (seed : uint128_t) (hash : uint256_t) : M uint128_t :=
  let u := u128_b seed +% u256_a hash in
  let v := u128_a seed +% u256_b hash in
  r <- rotate64 v 32 ;;
  ret (mk128 (hash_16 u (v +% u256_c hash))
             (hash_16 r (u *% k0 +% u256_d hash))).

(** [cityhash128_crc_with_seed] *)
Definition cityhash128_crc_with_seed (s : ptr) (len : Z) (seed : uint128_t)
  : M uint128_t :=
  if len <=? 900 then cityhash128_with_seed s len seed
  else
    hash <- cityhash256_crc s len ;;
    let u := u128_b seed +% u256_a hash in
    let v := u128_a seed +% u256_b hash in
    r <- rotate64 v 32 ;;
    ret (mk128 (hash_16 u (v +% u256_c hash))
               (hash_16 r (u *% k0 +% u256_d hash))).

(** [cityhash128_crc] *)
Definition cityhash128_crc (s : ptr) (len : Z) : M uint128_t :=
  if len <=? 900 then cityhash128 s len
  else
    hash <- cityhash256_crc s len ;;
    ret (mk128 (u256_c hash) (u256_d hash)).

End CityHash.

(** The 64-byte block step iterated over [n] chunks from the front of the
    buffer: chunk [i] starts at [s + 64 * i]. *)
Fixpoint front_blocks (n : nat) (s : ptr) (st : regs) : M regs :=
  match n with
  | O => ret st
  | S n' => st' <- mix_block s st ;; front_blocks n' (s +p 64) st'
  end.

(** ** Reference instances of the two parameters

    They are used only to run the functions on concrete inputs. *)

(** Modelled from the spec: [hash_128_to_64] of [cityhash.h], a fixed
    128-bit-to-64-bit compression (multiply, shift, XOR, multiply again),
    with the multiplier of the reference CityHash. *)
Definition hash_128_to_64_ref (x : uint128_t) : Z :=
  let kMul := 0x9ddfea08eb382d69 in
  let a := (u128_a x ^% u128_b x) *% kMul in
  let a := a ^% shr64 a 47 in
  let b := (u128_b x ^% a) *% kMul in
  let b := b ^% shr64 b 47 in
  b *% kMul.

(** Modelled from the spec: the hardware checksum instruction, CRC-32C over
    the eight bytes of the operand, low byte first, on the low 32 bits of the
    accumulator. *)
Definition crc32c_bit (crc : Z) : Z :=
  if Z.testbit crc 0 then Z.shiftr crc 1 ^% 0x82F63B78 else Z.shiftr crc 1.

Definition crc32c_byte (crc c : Z) : Z :=
  let crc := crc ^% c in
  crc32c_bit (crc32c_bit (crc32c_bit (crc32c_bit
    (crc32c_bit (crc32c_bit (crc32c_bit (crc32c_bit crc))))))).

Definition crc32c_u64 (crc val : Z) : Z :=
  fold_left (fun acc i => crc32c_byte acc (Z.land (Z.shiftr val (8 * i)) 255))
            [0; 1; 2; 3; 4; 5; 6; 7] (wrap32 crc).

(** Buffers used in the examples. *)
Definition bytes_of (l : list Z) : list byte :=
  map (fun n => match Strings.Byte.of_N (Z.to_N n) with Some c => c | None => x00 end) l.
Definition zeros (n : nat) : list byte := repeat x00 n.
Definition ramp (n : nat) : list byte :=
  bytes_of (map (fun i => Z.of_nat i mod 256) (seq 0 n)).

(** The pure right rotation of a 64-bit value. *)
Definition ror64 (val shift : Z) : Z :=
  Z.lor (shr64 val shift) (shl64 val (64 - shift)).

(** The shift amounts that appear as constants in the calls of [rotate64]
    (those of [CHUNK] are [41 ^ z], [27 ^ z], [33 ^ z], [25 ^ z] for
    [z] in 0, 1). *)
Definition const_shifts : list Z :=
  [7; 20; 21; 24; 25; 26; 27; 30; 31; 32; 33; 35; 37; 39; 40; 41; 42; 43; 44;
   49; 52; 53].

Definition shift_ok (shift : Z) : Prop :=
  In shift const_shifts \/ 9 <= shift <= 16.

(** The [n] bytes at [p] and at [q] exist and are the same. *)
Definition same_bytes (p q : ptr) (n : Z) : Prop :=
  forall i, 0 <= i < n -> exists c, byte_at p i = Some c /\ byte_at q i = Some c.

(** The caller's contract: the [n] bytes at [p] are addressable. *)
Definition readable (p : ptr) (n : Z) : Prop := same_bytes p p n.

(** Two runs both return, with results related by [R], the same recorded
    shifts, and every recorded shift is one of [shift_ok]. *)
Definition runs_rel {A} (R : A -> A -> Prop) (m1 m2 : M A) : Prop :=
  exists a1 a2 t, m1 = Ok a1 t /\ m2 = Ok a2 t /\ R a1 a2 /\ Forall shift_ok t.

Definition runs_alike {A} (m1 m2 : M A) : Prop := runs_rel eq m1 m2.

(** What the main loop of [cityhash128_with_seed] leaves behind: the pointer
    has advanced by [k >= 128] bytes and fewer than 128 bytes remain. *)
Definition after_loop128 (p q : ptr) (len : Z) (r1 r2 : ptr * Z * regs) : Prop :=
  exists k len' st,
    r1 = (p +p k, len', st) /\ r2 = (q +p k, len', st) /\
    128 <= k /\ 0 <= len' < 128 /\ k + len' = len.

(** What the main loop of [cityhash256_crc_long] leaves behind. *)
Definition after_loop256 (p q : ptr) (iters : Z) (r1 r2 : ptr * crc_regs) : Prop :=
  exists st, r1 = (p +p 240 * iters, st) /\ r2 = (q +p 240 * iters, st).

(** The value a run returns, if it returns. *)
Definition value {A} (m : M A) : option A :=
  match m with
  | Ok a _ => Some a
  | Fault _ => None
  end.

(** A run returns. *)
Definition returns {A} (m : M A) : Prop := exists a t, m = Ok a t.

(** A run returns, and every shift amount it passed to [rotate64] is one of
    the constants or lies between 9 and 16, hence strictly between 0 and 64. *)
Definition returns_with_shifts_in_range {A} (m : M A) : Prop :=
  exists a t, m = Ok a t /\ Forall (fun sh => shift_ok sh /\ 0 < sh < 64) t.

(** ** Example inputs, and three readings of the specification as propositions *)

Definition buf12 : ptr := At (ramp 12) 0.
Definition buf65_a : ptr := At ([x00] ++ zeros 64 ++ []) 0.
Definition buf65_b : ptr := At ([x01] ++ zeros 64 ++ []) 0.
Definition buf128 : ptr := At (ramp 128) 0.
Definition buf900 : ptr := At (ramp 900) 0.
Definition buf901 : ptr := At (ramp 901) 0.
Definition buf960 : ptr := At (ramp 960) 0.
Definition buf12_inside : ptr := At ([xff] ++ ramp 12 ++ [xaa]) 1.
Definition buf300 : ptr := At (ramp 300) 0.
Definition regs0 : regs := mkregs 1 2 3 (mk128 4 5) (mk128 6 7).

(** The reading of section 4.1 on which [rotate64] has a special case for
    shift 0 that returns the value unchanged. *)
Definition special_cases_zero_shift (val : Z) : Prop :=
  value (rotate64 val 0) = Some val.


(** The reading of section 4.6 on which the unseeded composite hasher, above
    900 bytes, returns the lanes of the 256-bit hash folded with seed [seed]. *)
Definition crc128_folds_lanes (seed : uint128_t) (s : ptr) (len : Z) : Prop :=
  value (cityhash128_crc hash_128_to_64_ref crc32c_u64 s len) =
  value (hash <- cityhash256_crc hash_128_to_64_ref crc32c_u64 s len ;;
         fold_lanes hash_128_to_64_ref seed hash).

(** The reading of section 4.3 on which the long path runs the block step
    over [len / 64] chunks. *)
Definition runs_all_full_chunks (s : ptr) (len : Z) : Prop :=
  value (st <- cityhash64_init s len ;;
         cityhash64_loop (Z.to_nat len) s (truncated_len len) st) =
  value (st <- cityhash64_init s len ;;
         front_blocks (Z.to_nat (len / 64)) s st).

(** The reading of section 4.3 on which inputs of one length that agree on
    their last 64 bytes get the same five registers. *)
Definition seeded_from_last_64 (s1 s2 : ptr) (len : Z) : Prop :=
  same_bytes (s1 +p (len - 64)) (s2 +p (len - 64)) 64 ->
  value (cityhash64_init s1 len) = value (cityhash64_init s2 len).

(** ** Further definitions: the register swap, and predicates on runs *)

(** [swap64] takes two pointers to 64-bit cells, which may be the same cell:
    the cells live in a store addressed by [nat]. *)
Definition store : Type := nat -> Z.

Definition store_set (m : store) (a : nat) (val : Z) : store :=
  fun r => if Nat.eqb r a then val else m r.

(** [swap64]: [t = *a; *a = *b; *b = t;] *)
Definition swap64 (m : store) (a b : nat) : store :=
  let t := m a in
  let m := store_set m a (m b) in
  store_set m b t.

(** The macro [PERMUTE3_64(a, b, c)]: [swap64(a, b); swap64(a, c);] *)
Definition PERMUTE3_64 (m : store) (a b c : nat) : store :=
  let m := swap64 m a b in
  swap64 m a c.

Definition store0 : store := fun r => Z.of_nat r.

(** A 64-bit value; a pair and a 4-tuple of 64-bit lanes. *)
Definition is_u64 (n : Z) : Prop := 0 <= n < 2 ^ 64.
Definition is_u128 (h : uint128_t) : Prop := is_u64 (u128_a h) /\ is_u64 (u128_b h).
Definition is_u256 (h : uint256_t) : Prop :=
  is_u64 (u256_a h) /\ is_u64 (u256_b h) /\ is_u64 (u256_c h) /\ is_u64 (u256_d h).

(** The contract of a run: if it returns, the footprint [P] was addressable
    and the result satisfies [Q]; if it faults, the fault is an out-of-bounds
    read. *)
Definition run_contract {A} (P : Prop) (Q : A -> Prop) (m : M A) : Prop :=
  match m with
  | Ok a _ => P /\ Q a
  | Fault e => e = OutOfBounds
  end.

(** A result fits in 64 bits per lane, provided [hash_128_to_64] returns
    64-bit values. *)
Definition u64_given (hash_128_to_64 : uint128_t -> Z) (h : Z) : Prop :=
  (forall x, is_u64 (hash_128_to_64 x)) -> is_u64 h.
Definition u128_given (hash_128_to_64 : uint128_t -> Z) (h : uint128_t) : Prop :=
  (forall x, is_u64 (hash_128_to_64 x)) -> is_u128 h.
Definition u256_given (hash_128_to_64 : uint128_t -> Z) (h : uint256_t) : Prop :=
  (forall x, is_u64 (hash_128_to_64 x)) -> is_u256 h.

(** The two outcomes of an entry point: the footprint is addressable and the
    call returns a value satisfying [Q], or it is not and the call is an
    out-of-bounds read. *)
Definition exact_contract {A} (P : Prop) (Q : A -> Prop) (m : M A) : Prop :=
  (P /\ exists a t, m = Ok a t /\ Q a) \/ (~ P /\ m = Fault OutOfBounds).

(** * Properties *)

(** ** Arithmetic facts *)

Lemma wrap64_small n : 0 <= n < 2 ^ 64 -> wrap64 n = n.
Proof. intros; unfold wrap64; apply Z.mod_small; assumption. Qed.

Lemma sub64_small m n : 0 <= m - n < 2 ^ 64 -> m -% n = m - n.
Proof. intros; unfold sub64; apply wrap64_small; assumption. Qed.

Lemma add64_small m n : 0 <= m + n < 2 ^ 64 -> m +% n = m + n.
Proof. intros; unfold add64; apply wrap64_small; assumption. Qed.

Lemma shift_ok_range sh : shift_ok sh -> 0 < sh < 64.
Proof.
  unfold shift_ok, const_shifts; simpl; intros [H | H]; [| lia].
  repeat (destruct H as [H | H]; [lia |]); contradiction.
Qed.

Lemma truncated_len_div len :
  0 < len < 2 ^ 64 -> truncated_len len = 64 * ((len - 1) / 64).
Proof.
  intros H. unfold truncated_len. rewrite sub64_small by lia.
  change (not64 63) with (Z.land (Z.lnot (Z.ones 6)) (Z.ones 64)).
  rewrite Z.land_assoc, (Z.land_comm (len - 1)), <- Z.land_assoc.
  rewrite (Z.land_ones (len - 1) 64) by lia.
  rewrite Z.mod_small by lia.
  rewrite Z.land_comm. change (Z.land (len - 1) (Z.lnot (Z.ones 6)))
    with (Z.ldiff (len - 1) (Z.ones 6)).
  rewrite Z.ldiff_ones_r by lia.
  rewrite Z.shiftr_div_pow2, Z.shiftl_mul_pow2 by lia.
  change (2 ^ 6) with 64. lia.
Qed.

(** ** The monad *)

Lemma bind_ret_r {A} (m : M A) : (a <- m ;; ret a) = m.
Proof. destruct m; simpl; [rewrite app_nil_r|]; reflexivity. Qed.

Lemma bind_ext {A B} (m : M A) (k1 k2 : A -> M B) :
  (forall a, k1 a = k2 a) -> bind m k1 = bind m k2.
Proof. intros H; destruct m; simpl; [rewrite H|]; reflexivity. Qed.

Lemma rel_ret {A} (R : A -> A -> Prop) a1 a2 :
  R a1 a2 -> runs_rel R (ret a1) (ret a2).
Proof. intros; exists a1, a2, []; repeat split; auto. Qed.

Lemma rel_bind {A B} (R : A -> A -> Prop) (Q : B -> B -> Prop) m1 m2 k1 k2 :
  runs_rel R m1 m2 ->
  (forall a1 a2, R a1 a2 -> runs_rel Q (k1 a1) (k2 a2)) ->
  runs_rel Q (bind m1 k1) (bind m2 k2).
Proof.
  intros (a1 & a2 & t & -> & -> & Ha & Ht) Hk.
  destruct (Hk a1 a2 Ha) as (b1 & b2 & t' & E1 & E2 & Hb & Ht').
  exists b1, b2, (t ++ t'); simpl; rewrite E1, E2.
  repeat split; auto. apply Forall_app; split; assumption.
Qed.

Lemma alike_bind {A B} (Q : B -> B -> Prop) (m1 m2 : M A) k1 k2 :
  runs_alike m1 m2 ->
  (forall a, runs_rel Q (k1 a) (k2 a)) ->
  runs_rel Q (bind m1 k1) (bind m2 k2).
Proof. intros H Hk; eapply rel_bind; [exact H | intros a ? <-; apply Hk]. Qed.

Lemma rel_weaken {A} (R Q : A -> A -> Prop) m1 m2 :
  runs_rel R m1 m2 -> (forall a1 a2, R a1 a2 -> Q a1 a2) -> runs_rel Q m1 m2.
Proof.
  intros (a1 & a2 & t & E1 & E2 & Ha & Ht) HQ; exists a1, a2, t; auto.
Qed.

Lemma alike_eq {A} (m1 m2 : M A) : runs_alike m1 m2 -> m1 = m2.
Proof. intros (a1 & a2 & t & -> & -> & -> & _); reflexivity. Qed.

Lemma alike_returns {A} (m1 m2 : M A) :
  runs_alike m1 m2 -> exists a t, m1 = Ok a t /\ Forall shift_ok t.
Proof. intros (a1 & a2 & t & -> & _ & _ & Ht); eauto. Qed.

(** ** Pointers and loads *)

Lemma padd_padd p j k : p +p j +p k = p +p (j + k).
Proof. destruct p; simpl; [reflexivity | rewrite Z.add_assoc; reflexivity]. Qed.

Lemma byte_at_padd p k i : byte_at (p +p k) i = byte_at p (k + i).
Proof. destruct p; simpl; [reflexivity | rewrite Z.add_assoc; reflexivity]. Qed.

Lemma same_bytes_shift p q n k m :
  same_bytes p q n -> 0 <= k -> k + m <= n -> same_bytes (p +p k) (q +p k) m.
Proof.
  intros H Hk Hm i Hi. rewrite !byte_at_padd. apply H; lia.
Qed.

Lemma same_bytes_le p q n m : same_bytes p q n -> m <= n -> same_bytes p q m.
Proof. intros H Hm i Hi; apply H; lia. Qed.

Lemma same_bytes_tail p q j n k m :
  same_bytes (p +p j) (q +p j) n -> j <= k -> k + m <= j + n ->
  same_bytes (p +p k) (q +p k) m.
Proof.
  intros H Hk Hm i Hi. rewrite !byte_at_padd.
  replace (k + i) with (j + (k - j + i)) by lia.
  rewrite <- (byte_at_padd p j), <- (byte_at_padd q j). apply H; lia.
Qed.

Lemma same_bytes_refl_l p q n : same_bytes p q n -> readable p n.
Proof. intros H i Hi; destruct (H i Hi) as (c & E & _); eauto. Qed.

Lemma same_bytes_refl_r p q n : same_bytes p q n -> readable q n.
Proof. intros H i Hi; destruct (H i Hi) as (c & _ & E); eauto. Qed.


Lemma load8_same p q n i :
  same_bytes p q n -> 0 <= i < n ->
  exists c, load8 p i = Ok c [] /\ load8 q i = Ok c [].
Proof.
  intros H Hi. destruct (H i Hi) as (c & E1 & E2).
  exists (Z.of_N (Strings.Byte.to_N c)).
  unfold load8; rewrite E1, E2; split; reflexivity.
Qed.

Lemma load_le_same n : forall p q,
  same_bytes p q (Z.of_nat n) ->
  exists c, load_le n p = Ok c [] /\ load_le n q = Ok c [].
Proof.
  induction n as [| n IH]; intros p q H.
  - exists 0; split; reflexivity.
  - destruct (load8_same p q _ 0 H ltac:(lia)) as (c & E1 & E2).
    destruct (IH (p +p 1) (q +p 1)) as (r & F1 & F2).
    { eapply same_bytes_shift; [exact H | lia | lia]. }
    exists (c + 256 * r). cbn [load_le]. rewrite E1, E2, F1, F2. split; reflexivity.
Qed.

Lemma load_le_any n p q :
  readable p (Z.of_nat n) -> readable q (Z.of_nat n) ->
  exists c d, load_le n p = Ok c [] /\ load_le n q = Ok d [].
Proof.
  intros Hp Hq.
  destruct (load_le_same n p p Hp) as (c & E & _).
  destruct (load_le_same n q q Hq) as (d & F & _). eauto.
Qed.

Lemma alike_load8 p q n i :
  same_bytes p q n -> 0 <= i < n -> runs_alike (load8 p i) (load8 q i).
Proof.
  intros H Hi; destruct (load8_same p q n i H Hi) as (c & E1 & E2).
  exists c, c, []; auto.
Qed.

Lemma alike_fetch64 p q : same_bytes p q 8 -> runs_alike (fetch64 p) (fetch64 q).
Proof.
  intros H; destruct (load_le_same 8 p q H) as (c & E1 & E2).
  exists c, c, []; auto.
Qed.

Lemma alike_fetch32 p q : same_bytes p q 4 -> runs_alike (fetch32 p) (fetch32 q).
Proof.
  intros H; destruct (load_le_same 4 p q H) as (c & E1 & E2).
  exists c, c, []; auto.
Qed.

Lemma rel_fetch64_any p q :
  readable p 8 -> readable q 8 -> runs_rel (fun _ _ => True) (fetch64 p) (fetch64 q).
Proof.
  intros Hp Hq; destruct (load_le_any 8 p q Hp Hq) as (c & d & E1 & E2).
  exists c, d, []; auto.
Qed.

(** ** [rotate64] away from its two hazards *)

Lemma rotate64_ok val shift :
  0 < shift < 64 -> rotate64 val shift = Ok (ror64 val shift) [shift].
Proof.
  intros H. unfold rotate64, assert, shr, shl, note_shift.
  replace (shift <? 64) with true by (symmetry; apply Z.ltb_lt; lia).
  replace (0 <=? shift) with true by (symmetry; apply Z.leb_le; lia).
  replace (0 <=? 64 - shift) with true by (symmetry; apply Z.leb_le; lia).
  replace (64 - shift <? 64) with true by (symmetry; apply Z.ltb_lt; lia).
  reflexivity.
Qed.

Lemma rel_rotate64_any val1 val2 shift :
  shift_ok shift -> runs_rel (fun _ _ => True) (rotate64 val1 shift) (rotate64 val2 shift).
Proof.
  intros H. pose proof (shift_ok_range _ H) as Hr.
  exists (ror64 val1 shift), (ror64 val2 shift), [shift].
  rewrite !rotate64_ok by assumption. repeat split; auto.
Qed.

Lemma alike_rotate64 val shift :
  shift_ok shift -> runs_alike (rotate64 val shift) (rotate64 val shift).
Proof.
  intros H. pose proof (shift_ok_range _ H) as Hr.
  exists (ror64 val shift), (ror64 val shift), [shift].
  rewrite !rotate64_ok by assumption. repeat split; auto.
Qed.

Lemma shift_ok_const shift : In shift const_shifts -> shift_ok shift.
Proof. intros; left; assumption. Qed.

(** ** Proof automation for straight-line code *)

Ltac shift_tac :=
  first [ apply shift_ok_const; simpl; tauto | right; lia ].

Ltac bytes_tac :=
  rewrite ?padd_padd;
  first [ eapply same_bytes_le; [eassumption | lia]
        | eapply same_bytes_shift; [eassumption | lia | lia]
        | eapply same_bytes_tail; [eassumption | lia | lia] ].

(** One step through a primitive at the head of both runs. *)
Ltac alike_prim :=
  lazymatch goal with
  | |- runs_rel _ (bind (rotate64 _ _) _) _ =>
      eapply alike_bind; [apply alike_rotate64; shift_tac | intros ?; cbv beta zeta]
  | |- runs_rel _ (bind (fetch64 _) _) _ =>
      eapply alike_bind; [apply alike_fetch64; bytes_tac | intros ?; cbv beta zeta]
  | |- runs_rel _ (bind (fetch32 _) _) _ =>
      eapply alike_bind; [apply alike_fetch32; bytes_tac | intros ?; cbv beta zeta]
  | |- runs_rel _ (bind (load8 _ _) _) _ =>
      eapply alike_bind;
      [eapply alike_load8; [eassumption | lia] | intros ?; cbv beta zeta]
  | |- runs_rel eq (ret _) (ret _) => apply rel_ret; reflexivity
  | |- runs_rel _ (rotate64 _ _) (rotate64 _ _) => apply alike_rotate64; shift_tac
  | |- runs_rel _ (fetch64 _) (fetch64 _) => apply alike_fetch64; bytes_tac
  end.

(** ** The helpers read only the bytes they are given *)

Lemma alike_weak_hash_32_with_seeds w x y z a b :
  runs_alike (weak_hash_32_with_seeds w x y z a b)
             (weak_hash_32_with_seeds w x y z a b).
Proof.
  unfold weak_hash_32_with_seeds, runs_alike. cbv zeta. repeat alike_prim.
Qed.

Lemma alike_weak_hash_32_with_seeds_raw p q a b :
  same_bytes p q 32 ->
  runs_alike (weak_hash_32_with_seeds_raw p a b) (weak_hash_32_with_seeds_raw q a b).
Proof.
  intros H. unfold weak_hash_32_with_seeds_raw, runs_alike. repeat alike_prim.
  apply alike_weak_hash_32_with_seeds.
Qed.

(** Straight-line code: step through primitives and the 32-byte helper until
    something else is at the head. *)
Ltac alike_steps :=
  cbv zeta; unfold runs_alike;
  repeat first
    [ alike_prim
    | lazymatch goal with
      | |- runs_rel _ (bind (weak_hash_32_with_seeds_raw _ _ _) _) _ =>
          eapply alike_bind;
          [apply alike_weak_hash_32_with_seeds_raw; bytes_tac
          | intros ?; cbv beta zeta]
      end ].

Lemma alike_mix_block p q st :
  same_bytes p q 64 -> runs_alike (mix_block p st) (mix_block q st).
Proof.
  intros H. destruct st as [x y z v w]. unfold mix_block. alike_steps.
Qed.

Lemma alike_front_blocks n : forall p q st,
  same_bytes p q (64 * Z.of_nat n) ->
  runs_alike (front_blocks n p st) (front_blocks n q st).
Proof.
  induction n as [| n IH]; intros p q st H; cbn [front_blocks].
  - apply rel_ret; reflexivity.
  - eapply alike_bind.
    + apply alike_mix_block. eapply same_bytes_le; [exact H | lia].
    + intros st'. apply IH. eapply same_bytes_shift; [exact H | lia | lia].
Qed.

(** The loop of [cityhash64], started on a positive multiple of 64, is the
    block step iterated over that many chunks from the front. *)
Lemma cityhash64_loop_front_blocks fuel : forall n s st,
  (1 <= n <= fuel)%nat -> 64 * Z.of_nat n < 2 ^ 64 ->
  cityhash64_loop fuel s (64 * Z.of_nat n) st = front_blocks n s st.
Proof.
  induction fuel as [| fuel IH]; intros n s st Hn Hb; [lia |].
  destruct n as [| n]; [lia |].
  cbn [cityhash64_loop front_blocks]. cbv zeta.
  rewrite sub64_small by lia.
  destruct n as [| n].
  - cbn [front_blocks]. change (64 * Z.of_nat 1 - 64 =? 0) with true.
    cbv iota. reflexivity.
  - replace (64 * Z.of_nat (S (S n)) - 64) with (64 * Z.of_nat (S n)) by lia.
    replace (64 * Z.of_nat (S n) =? 0) with false by (symmetry; apply Z.eqb_neq; lia).
    apply bind_ext. intros st'. apply IH; lia.
Qed.

Lemma alike_cityhash64_init p q len :
  64 <= len -> same_bytes p q len ->
  runs_alike (cityhash64_init p len) (cityhash64_init q len).
Proof.
  intros Hlen H. unfold cityhash64_init. alike_steps.
Qed.

Lemma alike_hash_33_to_64 p q len :
  32 <= len -> same_bytes p q len ->
  runs_alike (hash_33_to_64 p len) (hash_33_to_64 q len).
Proof. intros Hlen H. unfold hash_33_to_64. alike_steps. Qed.

(** C6, as the code has it.  For every length above 64, the registers [y],
    [z], [v] and [w] are seeded from the last 64 bytes of the input and the
    length alone: two inputs of the same length that agree on their last 64
    bytes get the same [y], [z], [v], [w].  The register [x] is seeded from
    the first 8 bytes as well: inputs that agree on their first 8 and last
    64 bytes get the same five registers. *)
Theorem cityhash64_init_sources s1 s2 len :
  64 < len ->
  same_bytes (s1 +p (len - 64)) (s2 +p (len - 64)) 64 ->
  readable s1 8 -> readable s2 8 ->
  runs_rel (fun st1 st2 => ry st1 = ry st2 /\ rz st1 = rz st2 /\
                           rv st1 = rv st2 /\ rw st1 = rw st2)
           (cityhash64_init s1 len) (cityhash64_init s2 len)
  /\ (same_bytes s1 s2 8 -> cityhash64_init s1 len = cityhash64_init s2 len).
Proof.
  intros Hlen Hlast H1 H2. split.
  - unfold cityhash64_init. cbv zeta.
    eapply rel_bind; [apply rel_fetch64_any; assumption | intros x1 x2 _].
    alike_steps.
    eapply rel_bind; [apply rel_rotate64_any; shift_tac | intros r1 r2 _].
    alike_steps. apply rel_ret. simpl. auto.
  - intros H8. apply alike_eq. unfold cityhash64_init. alike_steps.
Qed.

Lemma lor_below_pow2 m n k :
  0 <= k -> 0 <= m < 2 ^ k -> 0 <= n < 2 ^ k -> 0 <= Z.lor m n < 2 ^ k.
Proof.
  intros Hk Hm Hn.
  assert (H0 : 0 <= Z.lor m n) by (apply Z.lor_nonneg; lia).
  split; [assumption |].
  destruct (Z.eq_dec (Z.lor m n) 0) as [E | E].
  - rewrite E. apply Z.pow_pos_nonneg; lia.
  - apply Z.log2_lt_pow2; [lia |].
    rewrite Z.log2_lor by lia.
    destruct (Z.eq_dec m 0) as [-> | Em]; destruct (Z.eq_dec n 0) as [-> | En].
    + exfalso; apply E; reflexivity.
    + rewrite Z.max_r by (apply Z.log2_nonneg). apply Z.log2_lt_pow2; lia.
    + rewrite Z.max_l by (apply Z.log2_nonneg). apply Z.log2_lt_pow2; lia.
    + apply Z.max_lub_lt; apply Z.log2_lt_pow2; lia.
Qed.

Lemma ror64_range val shift :
  0 <= val < 2 ^ 64 -> 0 < shift < 64 -> 0 <= ror64 val shift < 2 ^ 64.
Proof.
  intros Hv Hs. unfold ror64, shr64, shl64, wrap64.
  apply lor_below_pow2; [lia | | apply Z.mod_pos_bound; lia].
  rewrite Z.shiftr_div_pow2 by lia. split.
  - apply Z.div_pos; [lia | apply Z.pow_pos_nonneg; lia].
  - apply Z.le_lt_trans with val; [| lia].
    apply Z.div_le_upper_bound; [apply Z.pow_pos_nonneg; lia |].
    assert (1 <= 2 ^ shift) by (apply (Z.pow_le_mono_r 2 0 shift); lia). nia.
Qed.

Lemma ror64_bits val shift i :
  0 <= val < 2 ^ 64 -> 0 < shift < 64 -> 0 <= i < 64 ->
  Z.testbit (ror64 val shift) i = Z.testbit val ((i + shift) mod 64).
Proof.
  intros Hv Hs Hi. unfold ror64, shr64, shl64, wrap64.
  rewrite Z.lor_spec, Z.shiftr_spec by lia.
  rewrite Z.mod_pow2_bits_low by lia.
  rewrite Z.shiftl_spec by lia.
  destruct (Z_lt_le_dec (i + shift) 64) as [Hlt | Hge].
  - rewrite Z.mod_small by lia.
    rewrite (Z.testbit_neg_r val (i - (64 - shift))) by lia.
    apply orb_false_r.
  - replace ((i + shift) mod 64) with (i + shift - 64).
    + replace (i - (64 - shift)) with (i + shift - 64) by lia.
      replace (Z.testbit val (i + shift)) with false; [reflexivity |].
      symmetry. destruct (Z.eq_dec val 0) as [-> | Hnz];
        [apply Z.bits_0 |].
      apply Z.bits_above_log2; [lia |].
      apply Z.lt_le_trans with 64; [| lia]. apply Z.log2_lt_pow2; lia.
    + apply Z.mod_unique with (q := 1); lia.
Qed.

(** C7, as the code has it.  For a 64-bit [val] and [0 < shift < 64],
    [rotate64] returns the right rotation of [val] by [shift] bits: bit [i]
    of the result is bit [(i + shift) mod 64] of [val].  At [shift = 0] the
    function has no special case: the assertion passes and the plain formula
    is evaluated, with [val << 64], a shift by the full register width,
    which is undefined. *)
Theorem rotate64_rotation_and_zero_shift val :
  0 <= val < 2 ^ 64 ->
  (forall shift, 0 < shift < 64 ->
     exists r, rotate64 val shift = Ok r [shift] /\ 0 <= r < 2 ^ 64 /\
       forall i, 0 <= i < 64 -> Z.testbit r i = Z.testbit val ((i + shift) mod 64))
  /\ rotate64 val 0 = Fault UndefinedShift.
Proof.
  intros Hv. split; [| reflexivity].
  intros shift Hs. exists (ror64 val shift). split; [apply rotate64_ok; assumption |].
  split; [apply ror64_range; assumption |].
  intros i Hi. apply ror64_bits; assumption.
Qed.

Section Runs.

Variable hash_128_to_64 : uint128_t -> Z.

Lemma alike_hash_0_to_16 p q len :
  0 <= len <= 16 -> same_bytes p q len ->
  runs_alike (hash_0_to_16 hash_128_to_64 p len) (hash_0_to_16 hash_128_to_64 q len).
Proof.
  intros Hlen H. unfold hash_0_to_16.
  destruct (Z.ltb_spec 8 len); [alike_steps |].
  destruct (Z.leb_spec 4 len); [alike_steps |].
  destruct (Z.ltb_spec 0 len); [| apply rel_ret; reflexivity].
  assert (Hs : 0 <= shr64 len 1 < len).
  { unfold shr64. rewrite Z.shiftr_div_pow2 by lia. change (2 ^ 1) with 2.
    split; [apply Z.div_pos; lia | apply Z.div_lt; lia]. }
  alike_steps.
Qed.

Lemma alike_hash_17_to_32 p q len :
  16 <= len -> same_bytes p q len ->
  runs_alike (hash_17_to_32 hash_128_to_64 p len) (hash_17_to_32 hash_128_to_64 q len).
Proof. intros Hlen H. unfold hash_17_to_32. alike_steps. Qed.

Lemma alike_cityhash64 p q len :
  0 <= len < 2 ^ 64 -> same_bytes p q len ->
  runs_alike (cityhash64 hash_128_to_64 p len) (cityhash64 hash_128_to_64 q len).
Proof.
  intros Hlen H. unfold cityhash64.
  destruct (Z.leb_spec len 32).
  { destruct (Z.leb_spec len 16).
    - apply alike_hash_0_to_16; [lia | assumption].
    - apply alike_hash_17_to_32; [lia | assumption]. }
  destruct (Z.leb_spec len 64).
  { apply alike_hash_33_to_64; [lia | assumption]. }
  cbv zeta. rewrite truncated_len_div by lia.
  assert (Hq : 1 <= (len - 1) / 64) by (apply Z.div_le_lower_bound; lia).
  assert (Hm : 64 * ((len - 1) / 64) <= len - 1) by (apply Z.mul_div_le; lia).
  rewrite <- (Z2Nat.id ((len - 1) / 64)) in * by lia.
  eapply alike_bind; [apply alike_cityhash64_init; [lia | assumption] | intros st].
  rewrite !cityhash64_loop_front_blocks by lia.
  eapply alike_bind; [| intros st'; apply rel_ret; reflexivity].
  apply alike_front_blocks. eapply same_bytes_le; [exact H | lia].
Qed.

Lemma alike_cityhash64_with_seeds p q len seed0 seed1 :
  0 <= len < 2 ^ 64 -> same_bytes p q len ->
  runs_alike (cityhash64_with_seeds hash_128_to_64 p len seed0 seed1)
             (cityhash64_with_seeds hash_128_to_64 q len seed0 seed1).
Proof.
  intros Hlen H. unfold cityhash64_with_seeds.
  eapply alike_bind; [apply alike_cityhash64; assumption |].
  intros h; apply rel_ret; reflexivity.
Qed.

Lemma to_signed64_sub16 len :
  0 <= len < 2 ^ 63 -> to_signed64 (len -% 16) = len - 16.
Proof.
  intros H. unfold to_signed64, sub64, wrap64.
  destruct (Z_lt_le_dec len 16) as [Hlt | Hge].
  - replace ((len - 16) mod 2 ^ 64) with (len - 16 + 2 ^ 64).
    + replace (len - 16 + 2 ^ 64 <? 2 ^ 63) with false; [lia |].
      symmetry; apply Z.ltb_ge; lia.
    + apply Z.mod_unique with (q := -1); lia.
  - rewrite Z.mod_small by lia.
    replace (len - 16 <? 2 ^ 63) with true; [reflexivity |].
    symmetry; apply Z.ltb_lt; lia.
Qed.

Lemma alike_city_murmur_loop fuel : forall l p q quad,
  0 < l <= Z.of_nat fuel -> same_bytes p q (l + 16) ->
  runs_alike (city_murmur_loop fuel p l quad) (city_murmur_loop fuel q l quad).
Proof.
  induction fuel as [| fuel IH]; intros l p q quad Hl H; [lia |].
  destruct quad as [[[a b] c] d]. cbn [city_murmur_loop].
  alike_steps.
  destruct (Z.ltb_spec 0 (l - 16)).
  - apply IH; [lia |]. eapply same_bytes_shift; [exact H | lia | lia].
  - apply rel_ret; reflexivity.
Qed.

Lemma alike_city_murmur p q len seed :
  0 <= len < 128 -> same_bytes p q len ->
  runs_alike (city_murmur hash_128_to_64 p len seed)
             (city_murmur hash_128_to_64 q len seed).
Proof.
  intros Hlen H. unfold city_murmur. cbv zeta.
  rewrite to_signed64_sub16 by lia.
  eapply alike_bind.
  2: { intros [[[a b] c] d]. apply rel_ret; reflexivity. }
  destruct (Z.leb_spec (len - 16) 0).
  - eapply alike_bind; [apply alike_hash_0_to_16; [lia | assumption] | intros h].
    eapply alike_bind; [| intros t; apply rel_ret; reflexivity].
    destruct (Z.leb_spec 8 len); [alike_steps | apply rel_ret; reflexivity].
  - alike_steps. apply alike_city_murmur_loop; [lia |].
    eapply same_bytes_le; [exact H | lia].
Qed.

Lemma rel_cityhash128_loop fuel : forall len p q st,
  128 <= len < 2 ^ 64 -> len <= Z.of_nat fuel -> same_bytes p q len ->
  runs_rel (after_loop128 p q len)
           (cityhash128_loop fuel p len st) (cityhash128_loop fuel q len st).
Proof.
  induction fuel as [| fuel IH]; intros len p q st Hlen Hf H; [lia |].
  cbn [cityhash128_loop].
  eapply alike_bind; [apply alike_mix_block; bytes_tac | intros st1].
  eapply alike_bind; [apply alike_mix_block; bytes_tac | intros st2].
  cbv zeta. rewrite sub64_small by lia. rewrite !padd_padd.
  change (64 + 64) with 128.
  destruct (Z.leb_spec 128 (len - 128)).
  - eapply rel_weaken.
    + apply IH; [lia | lia |]. eapply same_bytes_shift; [exact H | lia | lia].
    + intros r1 r2 (k & len' & st' & -> & -> & Hk & Hl & Hs).
      exists (128 + k), len', st'. rewrite !padd_padd.
      repeat split; lia.
  - apply rel_ret. exists 128, (len - 128), st2. repeat split; lia.
Qed.

Lemma alike_cityhash128_tail fuel : forall p q k len td st,
  same_bytes p q (k + len) -> 32 <= k -> 0 <= td -> len < 2 ^ 63 ->
  len - td <= Z.of_nat fuel ->
  runs_alike (cityhash128_tail fuel (p +p k) len td st)
             (cityhash128_tail fuel (q +p k) len td st).
Proof.
  induction fuel as [| fuel IH]; intros p q k len td st H Hk Htd Hlen Hf;
    cbn [cityhash128_tail]; destruct (Z.ltb_spec td len);
    try (apply rel_ret; reflexivity); [lia |].
  destruct st as [x y z v w]. cbv zeta. rewrite add64_small by lia.
  alike_steps.
  apply IH; try assumption; lia.
Qed.

Lemma padd_0 p : p +p 0 = p.
Proof. destruct p; simpl; [reflexivity | rewrite Z.add_0_r; reflexivity]. Qed.

Lemma alike_cityhash128_with_seed p q len seed :
  0 <= len < 2 ^ 64 -> same_bytes p q len ->
  runs_alike (cityhash128_with_seed hash_128_to_64 p len seed)
             (cityhash128_with_seed hash_128_to_64 q len seed).
Proof.
  intros Hlen H. unfold cityhash128_with_seed.
  destruct (Z.ltb_spec len 128); [apply alike_city_murmur; [lia | assumption] |].
  alike_steps.
  eapply rel_bind; [apply rel_cityhash128_loop; [lia | lia | assumption] |].
  intros r1 r2 (k & len' & st & -> & -> & Hk & Hl & Hs).
  destruct st as [x y z v w]. alike_steps.
  eapply alike_bind.
  - apply alike_cityhash128_tail; try lia. rewrite Hs; assumption.
  - intros [x' y' z' v' w']. apply rel_ret; reflexivity.
Qed.

Lemma alike_cityhash128 p q len :
  0 <= len < 2 ^ 64 -> same_bytes p q len ->
  runs_alike (cityhash128 hash_128_to_64 p len) (cityhash128 hash_128_to_64 q len).
Proof.
  intros Hlen H. unfold cityhash128.
  destruct (Z.leb_spec 16 len).
  { alike_steps. apply alike_cityhash128_with_seed; [lia |].
    eapply same_bytes_shift; [exact H | lia | lia]. }
  destruct (Z.leb_spec 8 len).
  { alike_steps. apply alike_cityhash128_with_seed; [lia |].
    intros i Hi; lia. }
  apply alike_cityhash128_with_seed; [lia | assumption].
Qed.

(** *** The SSE4.2 family *)

Variable _mm_crc32_u64 : Z -> Z -> Z.

Lemma alike_CHUNK multiplier z p q st :
  z = 0 \/ z = 1 -> same_bytes p q 40 ->
  runs_alike (CHUNK _mm_crc32_u64 multiplier z p st)
             (CHUNK _mm_crc32_u64 multiplier z q st).
Proof.
  intros Hz H. destruct st. unfold CHUNK.
  destruct Hz as [-> | ->]; alike_steps.
Qed.

Lemma rel_cityhash256_crc_loop fuel : forall iters p q st,
  1 <= iters < 2 ^ 64 -> iters <= Z.of_nat fuel -> same_bytes p q (240 * iters) ->
  runs_rel (after_loop256 p q iters)
           (cityhash256_crc_loop _mm_crc32_u64 fuel p iters st)
           (cityhash256_crc_loop _mm_crc32_u64 fuel q iters st).
Proof.
  induction fuel as [| fuel IH]; intros iters p q st Hi Hf H; [lia |].
  cbn [cityhash256_crc_loop].
  do 5 (eapply alike_bind;
        [apply alike_CHUNK; [auto | bytes_tac] | intros ?; cbv beta zeta]).
  eapply alike_bind;
    [apply alike_CHUNK; [auto | bytes_tac] | intros st6; cbv beta zeta].
  rewrite sub64_small by lia. rewrite !padd_padd.
  change (40 + (40 + (40 + (40 + (40 + 40))))) with 240.
  destruct (Z.ltb_spec 0 (iters - 1)).
  - eapply rel_weaken.
    + apply IH; [lia | lia |]. eapply same_bytes_shift; [exact H | lia | lia].
    + intros r1 r2 (st' & -> & ->). exists st'. rewrite !padd_padd.
      replace (240 + 240 * (iters - 1)) with (240 * iters) by lia. auto.
  - apply rel_ret. exists st6. replace (240 * iters) with 240 by lia. auto.
Qed.

Lemma alike_cityhash256_crc_tail fuel : forall p q k len td quad,
  same_bytes p q (k + len) -> 32 <= k -> 0 <= td -> len < 2 ^ 63 ->
  len - td <= Z.of_nat fuel ->
  runs_alike (cityhash256_crc_tail fuel (p +p k) len td quad)
             (cityhash256_crc_tail fuel (q +p k) len td quad).
Proof.
  induction fuel as [| fuel IH]; intros p q k len td quad H Hk Htd Hlen Hf;
    cbn [cityhash256_crc_tail]; destruct (Z.ltb_spec td len);
    try (apply rel_ret; reflexivity); [lia |].
  destruct quad as [[[a c] d] v]. unfold Rotate, Fetch64.
  cbv zeta. rewrite add64_small by lia.
  alike_steps.
  apply IH; try assumption; lia.
Qed.

Lemma alike_cityhash256_crc_long p q len seed :
  240 <= len < 2 ^ 64 -> same_bytes p q len ->
  runs_alike (cityhash256_crc_long hash_128_to_64 _mm_crc32_u64 p len seed)
             (cityhash256_crc_long hash_128_to_64 _mm_crc32_u64 q len seed).
Proof.
  intros Hlen H. unfold cityhash256_crc_long.
  assert (Hq : 1 <= len / 240) by (apply Z.div_le_lower_bound; lia).
  assert (Hm : 240 * (len / 240) <= len) by (apply Z.mul_div_le; lia).
  assert (Hr : len < 240 * (len / 240) + 240).
  { pose proof (Z.mul_succ_div_gt len 240); lia. }
  alike_steps.
  replace (len / 240 *% 240) with (240 * (len / 240))
    by (unfold mul64; rewrite wrap64_small; lia).
  rewrite sub64_small by lia.
  eapply rel_bind.
  { apply rel_cityhash256_crc_loop; [lia | lia |].
    eapply same_bytes_le; [exact H | lia]. }
  intros r1 r2 (st & -> & ->). destruct st. cbv zeta.
  eapply alike_bind.
  - apply alike_cityhash256_crc_tail; try lia.
    eapply same_bytes_le; [exact H | lia].
  - intros [[[a' c'] d'] v']. apply rel_ret; reflexivity.
Qed.

Lemma load_bytes_same n : forall p q,
  same_bytes p q (Z.of_nat n) ->
  exists l, load_bytes n p = Ok l [] /\ load_bytes n q = Ok l [] /\ length l = n.
Proof.
  induction n as [| n IH]; intros p q H.
  - exists []; repeat split.
  - destruct (H 0 ltac:(lia)) as (c & E1 & E2).
    destruct (IH (p +p 1) (q +p 1)) as (l & F1 & F2 & Hl).
    { eapply same_bytes_shift; [exact H | lia | lia]. }
    exists (c :: l). cbn [load_bytes]. rewrite E1, E2, F1, F2.
    repeat split. simpl; congruence.
Qed.

Lemma readable_At buf : readable (At buf 0) (Z.of_nat (length buf)).
Proof.
  intros i Hi. unfold byte_at. rewrite Z.add_0_l.
  replace (0 <=? i) with true by (symmetry; apply Z.leb_le; lia).
  destruct (nth_error buf (Z.to_nat i)) as [c |] eqn:E; [eauto |].
  apply nth_error_None in E. lia.
Qed.

Lemma same_bytes_not_NULL p q n :
  same_bytes p q n -> 0 < n -> p <> NULL /\ q <> NULL.
Proof.
  intros H Hn. destruct (H 0 ltac:(lia)) as (c & Hp & Hq).
  split; intros ->; discriminate.
Qed.

Lemma memcpy_not_NULL n p : p <> NULL -> memcpy n p = load_bytes n p.
Proof. destruct p; [contradiction | reflexivity]. Qed.

Lemma alike_cityhash256_crc_short p q len :
  0 <= len < 240 -> p <> NULL -> q <> NULL -> same_bytes p q len ->
  runs_alike (cityhash256_crc_short hash_128_to_64 _mm_crc32_u64 p len)
             (cityhash256_crc_short hash_128_to_64 _mm_crc32_u64 q len).
Proof.
  intros Hlen Hp Hq H. unfold cityhash256_crc_short.
  rewrite !memcpy_not_NULL by assumption.
  destruct (load_bytes_same (Z.to_nat len) p q) as (l & E1 & E2 & Hl).
  { rewrite Z2Nat.id by lia; assumption. }
  eapply rel_bind with (R := fun l1 l2 => l1 = l2 /\ length l1 = Z.to_nat len).
  - exists l, l, []. auto.
  - intros l1 l2 [<- Hl1]. cbv zeta. apply alike_cityhash256_crc_long; [lia |].
    eapply same_bytes_le; [apply readable_At |].
    rewrite length_app, repeat_length. lia.
Qed.

Lemma alike_cityhash256_crc p q len :
  0 <= len < 2 ^ 64 -> p <> NULL -> q <> NULL -> same_bytes p q len ->
  runs_alike (cityhash256_crc hash_128_to_64 _mm_crc32_u64 p len)
             (cityhash256_crc hash_128_to_64 _mm_crc32_u64 q len).
Proof.
  intros Hlen Hp Hq H. unfold cityhash256_crc.
  destruct (Z.leb_spec 240 len).
  - apply alike_cityhash256_crc_long; [lia | assumption].
  - apply alike_cityhash256_crc_short; [lia | assumption | assumption | assumption].
Qed.

Lemma alike_cityhash128_crc_with_seed p q len seed :
  0 <= len < 2 ^ 64 -> same_bytes p q len ->
  runs_alike (cityhash128_crc_with_seed hash_128_to_64 _mm_crc32_u64 p len seed)
             (cityhash128_crc_with_seed hash_128_to_64 _mm_crc32_u64 q len seed).
Proof.
  intros Hlen H. unfold cityhash128_crc_with_seed.
  destruct (Z.leb_spec len 900).
  - apply alike_cityhash128_with_seed; [lia | assumption].
  - destruct (same_bytes_not_NULL p q len H ltac:(lia)) as [Hp Hq].
    eapply alike_bind; [apply alike_cityhash256_crc; assumption | intros hash].
    alike_steps.
Qed.

Lemma alike_cityhash128_crc p q len :
  0 <= len < 2 ^ 64 -> same_bytes p q len ->
  runs_alike (cityhash128_crc hash_128_to_64 _mm_crc32_u64 p len)
             (cityhash128_crc hash_128_to_64 _mm_crc32_u64 q len).
Proof.
  intros Hlen H. unfold cityhash128_crc.
  destruct (Z.leb_spec len 900).
  - apply alike_cityhash128; [lia | assumption].
  - destruct (same_bytes_not_NULL p q len H ltac:(lia)) as [Hp Hq].
    eapply alike_bind; [apply alike_cityhash256_crc; assumption | intros hash].
    apply rel_ret; reflexivity.
Qed.

(** ** The claims *)

(** C1 (seed-composition law).  For every buffer, length and seeds,
    [cityhash64_with_seeds] runs [cityhash64] and returns
    [hash_16 (h - seed0 mod 2^64) seed1] for its result [h], with the same
    recorded trace and the same fault if there is one: seeding is a
    post-processing step of the unseeded hash.  And [cityhash64_with_seed]
    is [cityhash64_with_seeds] with first seed [k2]. *)
Theorem seed_composition_law s len seed0 seed1 seed :
  cityhash64_with_seeds hash_128_to_64 s len seed0 seed1 =
    match cityhash64 hash_128_to_64 s len with
    | Ok h t => Ok (hash_16 hash_128_to_64 ((h - seed0) mod 2 ^ 64) seed1) t
    | Fault e => Fault e
    end
  /\ cityhash64_with_seed hash_128_to_64 s len seed =
     cityhash64_with_seeds hash_128_to_64 s len k2 seed.
Proof.
  split; [| reflexivity].
  unfold cityhash64_with_seeds.
  destruct (cityhash64 hash_128_to_64 s len) as [h t | e]; simpl bind.
  - rewrite app_nil_r. reflexivity.
  - reflexivity.
Qed.

(** C2 (empty input).  [cityhash64] on length 0 returns the constant [k2],
    which is 0x9ae16a3b2f90404f, whatever the pointer (also [NULL]), and
    without reading a byte or rotating. *)
Theorem cityhash64_empty_input s :
  cityhash64 hash_128_to_64 s 0 = Ok k2 [] /\ k2 = 0x9ae16a3b2f90404f.
Proof. split; reflexivity. Qed.

(** C3 (threshold delegation).  For every buffer and every length up to 900,
    [cityhash128_crc] is exactly [cityhash128]. *)
Theorem cityhash128_crc_delegates s len :
  len <= 900 ->
  cityhash128_crc hash_128_to_64 _mm_crc32_u64 s len = cityhash128 hash_128_to_64 s len.
Proof.
  intros H. unfold cityhash128_crc.
  replace (len <=? 900) with true by (symmetry; apply Z.leb_le; assumption).
  reflexivity.
Qed.

(** C4, as the code has it.  For every length above 900, [cityhash128_crc]
    returns the last two lanes of [cityhash256_crc] as they are, with no
    [hash_16] and no seed; the derivation that combines a seed with two
    lanes by [hash_16] and folds in the other two is what
    [cityhash128_crc_with_seed] does. *)
Theorem cityhash128_crc_last_two_lanes s len seed :
  900 < len ->
  cityhash128_crc hash_128_to_64 _mm_crc32_u64 s len =
    (hash <- cityhash256_crc hash_128_to_64 _mm_crc32_u64 s len ;;
     ret (mk128 (u256_c hash) (u256_d hash)))
  /\ cityhash128_crc_with_seed hash_128_to_64 _mm_crc32_u64 s len seed =
    (hash <- cityhash256_crc hash_128_to_64 _mm_crc32_u64 s len ;;
     fold_lanes hash_128_to_64 seed hash).
Proof.
  intros H. unfold cityhash128_crc, cityhash128_crc_with_seed.
  replace (len <=? 900) with false by (symmetry; apply Z.leb_gt; assumption).
  split; reflexivity.
Qed.

(** C5, as the code has it.  For every length above 64, the effective
    length [(len - 1) & ~63] is [64 * ((len - 1) / 64)], the largest multiple
    of 64 strictly below [len]; the loop runs the block step over
    [(len - 1) / 64] chunks of 64 bytes from the front of the buffer, and
    [cityhash64] is the register seeding, these blocks and the final mix. *)
Theorem cityhash64_long_path_blocks s len :
  64 < len < 2 ^ 64 ->
  truncated_len len = 64 * ((len - 1) / 64)
  /\ truncated_len len < len <= truncated_len len + 64
  /\ (forall st,
        cityhash64_loop (Z.to_nat len) s (truncated_len len) st =
        front_blocks (Z.to_nat ((len - 1) / 64)) s st)
  /\ cityhash64 hash_128_to_64 s len =
       (st <- cityhash64_init s len ;;
        st <- front_blocks (Z.to_nat ((len - 1) / 64)) s st ;;
        ret (cityhash64_final hash_128_to_64 st)).
Proof.
  intros H.
  assert (Hq : 1 <= (len - 1) / 64) by (apply Z.div_le_lower_bound; lia).
  assert (Hm : 64 * ((len - 1) / 64) <= len - 1) by (apply Z.mul_div_le; lia).
  assert (Hr : len - 1 < 64 * ((len - 1) / 64) + 64).
  { pose proof (Z.mul_succ_div_gt (len - 1) 64); lia. }
  assert (Hloop : forall st,
            cityhash64_loop (Z.to_nat len) s (truncated_len len) st =
            front_blocks (Z.to_nat ((len - 1) / 64)) s st).
  { intros st. rewrite truncated_len_div by lia.
    rewrite <- (Z2Nat.id ((len - 1) / 64)) at 1 by lia.
    apply cityhash64_loop_front_blocks; lia. }
  rewrite truncated_len_div by lia.
  repeat split; try lia.
  - intros st. rewrite <- truncated_len_div by lia. apply Hloop.
  - unfold cityhash64.
    replace (len <=? 32) with false by (symmetry; apply Z.leb_gt; lia).
    replace (len <=? 64) with false by (symmetry; apply Z.leb_gt; lia).
    cbv zeta. apply bind_ext; intros st. rewrite Hloop. reflexivity.
Qed.


Lemma alike_in_range {A} (m : M A) :
  runs_alike m m -> returns_with_shifts_in_range m.
Proof.
  intros (a & _ & t & E & _ & _ & Ht); exists a, t; split; [exact E |].
  eapply Forall_impl; [| exact Ht].
  intros sh Hsh; split; [assumption | apply shift_ok_range; assumption].
Qed.



(** The only call of [rotate64] in [hash_0_to_16] is the one of the branch
    for more than 8 bytes, and its shift amount is the length. *)
Lemma hash_0_to_16_shifts s len :
  0 <= len <= 16 -> readable s len ->
  exists h, hash_0_to_16 hash_128_to_64 s len = Ok h (if 8 <? len then [len] else []).
Proof.
  intros Hlen H. unfold hash_0_to_16.
  destruct (Z.ltb_spec 8 len).
  - destruct (load_le_same 8 s s) as (a & Ea & _).
    { eapply same_bytes_le; [exact H | simpl; lia]. }
    destruct (load_le_same 8 (s +p (len - 8)) (s +p (len - 8))) as (b & Eb & _).
    { eapply same_bytes_shift; [exact H | lia | simpl; lia]. }
    unfold fetch64, uload64. rewrite Ea, Eb. cbn [bind app].
    rewrite rotate64_ok by lia. cbn [bind app ret]. eauto.
  - destruct (Z.leb_spec 4 len).
    + destruct (load_le_same 4 s s) as (a & Ea & _).
      { eapply same_bytes_le; [exact H | simpl; lia]. }
      destruct (load_le_same 4 (s +p (len - 4)) (s +p (len - 4))) as (b & Eb & _).
      { eapply same_bytes_shift; [exact H | lia | simpl; lia]. }
      unfold fetch32, uload32. rewrite Ea, Eb. cbn [bind app ret]. eauto.
    + destruct (Z.ltb_spec 0 len); [| unfold ret; eauto].
      assert (Hs : 0 <= shr64 len 1 < len).
      { unfold shr64. rewrite Z.shiftr_div_pow2 by lia. change (2 ^ 1) with 2.
        split; [apply Z.div_pos; lia | apply Z.div_lt; lia]. }
      destruct (load8_same s s len 0 H ltac:(lia)) as (a & Ea & _).
      destruct (load8_same s s len (shr64 len 1) H Hs) as (b & Eb & _).
      destruct (load8_same s s len (len - 1) H ltac:(lia)) as (c & Ec & _).
      rewrite Ea, Eb, Ec. cbn [bind app ret]. eauto.
Qed.

(** C10 (shift amounts).  On every length [0 <= len < 2^64] whose bytes are
    addressable, every entry point returns, and every shift amount it passed
    to [rotate64] is one of the nonzero constants of the code or lies
    between 9 and 16, hence strictly between 0 and 64: the assertion holds
    at every call and no call has shift 0.  The amount that is not a
    constant comes from [hash_0_to_16], which calls [rotate64] only for
    [9 <= len <= 16], once, with [len] as the amount. *)
Theorem rotate64_shifts_in_range s len seed0 seed1 seed :
  0 <= len < 2 ^ 64 -> readable s len ->
  returns_with_shifts_in_range (cityhash64 hash_128_to_64 s len)
  /\ returns_with_shifts_in_range (cityhash64_with_seed hash_128_to_64 s len seed1)
  /\ returns_with_shifts_in_range
       (cityhash64_with_seeds hash_128_to_64 s len seed0 seed1)
  /\ returns_with_shifts_in_range (cityhash128 hash_128_to_64 s len)
  /\ returns_with_shifts_in_range (cityhash128_with_seed hash_128_to_64 s len seed)
  /\ returns_with_shifts_in_range
       (cityhash128_crc hash_128_to_64 _mm_crc32_u64 s len)
  /\ returns_with_shifts_in_range
       (cityhash128_crc_with_seed hash_128_to_64 _mm_crc32_u64 s len seed)
  /\ (len <= 16 ->
      exists h, hash_0_to_16 hash_128_to_64 s len =
                Ok h (if 8 <? len then [len] else [])).
Proof.
  intros Hlen H.
  repeat match goal with |- returns_with_shifts_in_range _ /\ _ => split end.
  - apply alike_in_range, alike_cityhash64; assumption.
  - apply alike_in_range, alike_cityhash64_with_seeds; assumption.
  - apply alike_in_range, alike_cityhash64_with_seeds; assumption.
  - apply alike_in_range, alike_cityhash128; assumption.
  - apply alike_in_range, alike_cityhash128_with_seed; assumption.
  - apply alike_in_range, alike_cityhash128_crc; assumption.
  - apply alike_in_range, alike_cityhash128_crc_with_seed; assumption.
  - intros H16. apply hash_0_to_16_shifts; [lia | assumption].
Qed.

End Runs.

(** ** Concrete buffers *)

Lemma byte_at_window pre c suf i :
  (i < length c)%nat ->
  byte_at (At (pre ++ c ++ suf) (Z.of_nat (length pre))) (Z.of_nat i) =
  nth_error c i.
Proof.
  intros Hi. unfold byte_at.
  replace (0 <=? Z.of_nat (length pre) + Z.of_nat i) with true
    by (symmetry; apply Z.leb_le; lia).
  replace (Z.to_nat (Z.of_nat (length pre) + Z.of_nat i))
    with (length pre + i)%nat by lia.
  rewrite nth_error_app2 by lia.
  replace (length pre + i - length pre)%nat with i by lia.
  apply nth_error_app1; assumption.
Qed.

Lemma same_bytes_window pre1 pre2 c suf1 suf2 :
  same_bytes (At (pre1 ++ c ++ suf1) (Z.of_nat (length pre1)))
             (At (pre2 ++ c ++ suf2) (Z.of_nat (length pre2)))
             (Z.of_nat (length c)).
Proof.
  intros i Hi. assert (Hn : (Z.to_nat i < length c)%nat) by lia.
  rewrite <- (Z2Nat.id i) by lia. rewrite !byte_at_window by assumption.
  destruct (nth_error c (Z.to_nat i)) as [x |] eqn:E; [eauto |].
  apply nth_error_None in E. lia.
Qed.

Lemma readable_ramp n : readable (At (ramp n) 0) (Z.of_nat n).
Proof.
  replace n with (length (ramp n)) at 2; [apply readable_At |].
  unfold ramp, bytes_of. rewrite !length_map. apply length_seq.
Qed.

(** ** The claims on concrete inputs *)

Lemma cityhash128_crc_delegates_witness :
  900 <= 900 /\
  cityhash128_crc hash_128_to_64_ref crc32c_u64 buf900 900 =
  cityhash128 hash_128_to_64_ref buf900 900.
Proof.
  split; [lia |].
  apply (cityhash128_crc_delegates hash_128_to_64_ref crc32c_u64 buf900 900); lia.
Defined.

Lemma cityhash128_crc_last_two_lanes_witness :
  900 < 901 /\
  cityhash128_crc hash_128_to_64_ref crc32c_u64 buf901 901 =
    (hash <- cityhash256_crc hash_128_to_64_ref crc32c_u64 buf901 901 ;;
     ret (mk128 (u256_c hash) (u256_d hash))).
Proof.
  split; [lia |].
  apply (cityhash128_crc_last_two_lanes hash_128_to_64_ref crc32c_u64 buf901 901
           (mk128 0 0)); lia.
Defined.

(** C4 as stated fails on the 960 bytes 0, 1, 2, ... (four blocks of 240
    bytes, so the tail of the 256-bit hash is empty): the result of
    [cityhash128_crc] is not the fold of section 4.6, whether the seed is
    zero, the pair [(k0, k1)], or the seed [cityhash128] takes from the
    first 16 bytes. *)
Lemma cityhash128_crc_is_not_a_fold :
  ~ crc128_folds_lanes (mk128 0 0) buf960 960 /\
  ~ crc128_folds_lanes (mk128 k0 k1) buf960 960 /\
  ~ crc128_folds_lanes
      (mk128 (0x0706050403020100 ^% k3) 0x0f0e0d0c0b0a0908) buf960 960.
Proof.
  unfold crc128_folds_lanes.
  repeat split; intros E; vm_compute in E; discriminate E.
Qed.

(** The part of C4 that holds: on the same 901 bytes the composite hasher
    and the plain 128-bit hash differ. *)
Example cityhash128_crc_differs_from_cityhash128 :
  value (cityhash128_crc hash_128_to_64_ref crc32c_u64 buf901 901) <>
  value (cityhash128 hash_128_to_64_ref buf901 901).
Proof. intros E; vm_compute in E; discriminate E. Qed.

Lemma cityhash64_long_path_blocks_witness :
  64 < 128 < 2 ^ 64 /\
  truncated_len 128 = 64 * ((128 - 1) / 64) /\
  cityhash64 hash_128_to_64_ref buf128 128 =
    (st <- cityhash64_init buf128 128 ;;
     st <- front_blocks (Z.to_nat ((128 - 1) / 64)) buf128 st ;;
     ret (cityhash64_final hash_128_to_64_ref st)).
Proof.
  split; [lia |].
  destruct (cityhash64_long_path_blocks hash_128_to_64_ref buf128 128 ltac:(lia))
    as (Ht & _ & _ & Hc).
  split; [exact Ht | exact Hc].
Defined.

(** C5 as stated fails at length 128: the effective length is 64, not
    [64 * (128 / 64) = 128], and on a buffer of 128 bytes the loop runs one
    block where two blocks from the front give another state. *)
Lemma cityhash64_skips_last_full_chunk :
  truncated_len 128 = 64 /\ truncated_len 128 <> 64 * (128 / 64) /\
  ~ runs_all_full_chunks buf128 128.
Proof.
  split; [reflexivity |]. split.
  - intros E. vm_compute in E. discriminate E.
  - unfold runs_all_full_chunks. intros E. vm_compute in E. discriminate E.
Qed.

Lemma cityhash64_init_sources_witness :
  64 < 65 /\
  same_bytes (buf65_a +p (65 - 64)) (buf65_b +p (65 - 64)) 64 /\
  readable buf65_a 8 /\ readable buf65_b 8 /\
  runs_rel (fun st1 st2 => ry st1 = ry st2 /\ rz st1 = rz st2 /\
                           rv st1 = rv st2 /\ rw st1 = rw st2)
           (cityhash64_init buf65_a 65) (cityhash64_init buf65_b 65).
Proof.
  assert (Hlast : same_bytes (buf65_a +p (65 - 64)) (buf65_b +p (65 - 64)) 64)
    by exact (same_bytes_window [x00] [x01] (zeros 64) [] []).
  assert (Ha : readable buf65_a 8)
    by (eapply same_bytes_le; [exact (readable_At ([x00] ++ zeros 64 ++ [])) | simpl; lia]).
  assert (Hb : readable buf65_b 8)
    by (eapply same_bytes_le; [exact (readable_At ([x01] ++ zeros 64 ++ [])) | simpl; lia]).
  repeat (split; [first [lia | assumption] |]).
  exact (proj1 (cityhash64_init_sources buf65_a buf65_b 65 ltac:(lia) Hlast Ha Hb)).
Defined.

(** C6 as stated fails at length 65: two inputs that agree on their last 64
    bytes and differ in the first byte get different registers [x]. *)
Lemma cityhash64_init_reads_first_bytes :
  same_bytes (buf65_a +p (65 - 64)) (buf65_b +p (65 - 64)) 64 /\
  ~ seeded_from_last_64 buf65_a buf65_b 65.
Proof.
  assert (Hlast : same_bytes (buf65_a +p (65 - 64)) (buf65_b +p (65 - 64)) 64)
    by exact (same_bytes_window [x00] [x01] (zeros 64) [] []).
  split; [exact Hlast |].
  intros H. specialize (H Hlast). vm_compute in H. discriminate H.
Qed.

(** C7 as stated fails at shift 0: there is no special case that returns
    the value; the call evaluates [1 >> 0] and then [1 << 64]. *)
Lemma rotate64_has_no_zero_shift_case :
  ~ special_cases_zero_shift 1 /\
  rotate64 1 0 = (hi <- shr 1 0 ;; lo <- shl 1 64 ;; ret (Z.lor hi lo)) /\
  shl 1 64 = Fault UndefinedShift.
Proof.
  split; [| split; reflexivity].
  unfold special_cases_zero_shift. intros E. discriminate E.
Qed.


Lemma rotate64_rotation_and_zero_shift_witness :
  0 <= 1 < 2 ^ 64 /\ 0 < 1 < 64 /\
  (exists r, rotate64 1 1 = Ok r [1] /\
             Z.testbit r 63 = Z.testbit 1 ((63 + 1) mod 64)) /\
  rotate64 1 0 = Fault UndefinedShift.
Proof.
  assert (Hv : 0 <= 1 < 2 ^ 64) by lia.
  assert (Hs : 0 < 1 < 64) by lia.
  destruct (rotate64_rotation_and_zero_shift 1 Hv) as [Hrot Hzero].
  destruct (Hrot 1 Hs) as (r & E & _ & Hbits).
  repeat (split; [assumption |]).
  split; [| exact Hzero].
  exists r. split; [exact E | apply Hbits; lia].
Defined.



Lemma rotate64_shifts_in_range_witness :
  0 <= 12 < 2 ^ 64 /\ readable buf12 12 /\
  returns_with_shifts_in_range (cityhash64 hash_128_to_64_ref buf12 12) /\
  returns_with_shifts_in_range (cityhash128 hash_128_to_64_ref buf12 12).
Proof.
  assert (Hl : 0 <= 12 < 2 ^ 64) by lia.
  assert (Hr : readable buf12 12) by exact (readable_ramp 12).
  destruct (rotate64_shifts_in_range hash_128_to_64_ref crc32c_u64 buf12 12 0 0
              (mk128 k0 k1) Hl Hr)
    as (H1 & _ & _ & H4 & _).
  repeat (split; [assumption |]). assumption.
Defined.

(** * Further properties of the code *)

(** ** Loads *)

Lemma Ok_inj {A} (a b : A) t u : Ok a t = Ok b u -> a = b /\ t = u.
Proof. intros H; injection H; auto. Qed.

Lemma load8_cases p i :
  (exists c, byte_at p i = Some c /\
             load8 p i = Ok (Z.of_N (Strings.Byte.to_N c)) []) \/
  (byte_at p i = None /\ load8 p i = Fault OutOfBounds).
Proof.
  unfold load8. destruct (byte_at p i) as [c |]; [left; eauto | right; auto].
Qed.

Lemma byte_value_range c : 0 <= Z.of_N (Strings.Byte.to_N c) < 256.
Proof. pose proof (Strings.Byte.to_N_bounded c). lia. Qed.

Lemma load_le_cases n : forall p,
  (readable p (Z.of_nat n) /\
   exists c, load_le n p = Ok c [] /\ 0 <= c < 256 ^ Z.of_nat n) \/
  (~ readable p (Z.of_nat n) /\ load_le n p = Fault OutOfBounds).
Proof.
  induction n as [| n IH]; intros p.
  - left. split; [intros i Hi; lia |]. exists 0. split; [reflexivity | simpl; lia].
  - cbn [load_le].
    destruct (load8_cases p 0) as [(c & Hc & E) | (Hc & E)]; rewrite E.
    + destruct (IH (p +p 1)) as [(Hr & r & Er & Hb) | (Hr & Er)]; rewrite Er.
      * left. split.
        { intros i Hi. destruct (Z.eq_dec i 0) as [-> | Hne]; [eauto |].
          destruct (Hr (i - 1) ltac:(lia)) as (d & Hd & _).
          rewrite byte_at_padd in Hd. replace (1 + (i - 1)) with i in Hd by lia.
          eauto. }
        exists (Z.of_N (Strings.Byte.to_N c) + 256 * r). split; [reflexivity |].
        pose proof (byte_value_range c).
        rewrite Nat2Z.inj_succ, Z.pow_succ_r by lia. lia.
      * right. split; [| reflexivity].
        intros H. apply Hr. eapply same_bytes_shift; [exact H | lia | lia].
    + right. split; [| reflexivity].
      intros H. destruct (H 0 ltac:(lia)) as (c & Hc' & _). congruence.
Qed.

(** X1.  [fetch64] and [fetch32] return exactly when the 8 (the 4) bytes at
    the pointer are addressable, and then the value fits in 64 (in 32) bits
    and no rotation is recorded; otherwise the call is an out-of-bounds
    read. *)
Theorem fetch_contract p :
  ((readable p 8 /\ exists c, fetch64 p = Ok c [] /\ 0 <= c < 2 ^ 64) \/
   (~ readable p 8 /\ fetch64 p = Fault OutOfBounds))
  /\
  ((readable p 4 /\ exists c, fetch32 p = Ok c [] /\ 0 <= c < 2 ^ 32) \/
   (~ readable p 4 /\ fetch32 p = Fault OutOfBounds)).
Proof.
  split.
  - exact (load_le_cases 8 p).
  - exact (load_le_cases 4 p).
Qed.

Lemma fetch64_Ok p c t :
  fetch64 p = Ok c t -> readable p 8 /\ 0 <= c < 2 ^ 64 /\ t = [].
Proof.
  intros E. destruct (load_le_cases 8 p) as [(Hr & d & Ed & Hb) | (_ & Ef)].
  - unfold fetch64, uload64 in E. rewrite Ed in E. injection E as <- <-. auto.
  - unfold fetch64, uload64 in E. congruence.
Qed.

Lemma fetch32_Ok p c t :
  fetch32 p = Ok c t -> readable p 4 /\ 0 <= c < 2 ^ 32 /\ t = [].
Proof.
  intros E. destruct (load_le_cases 4 p) as [(Hr & d & Ed & Hb) | (_ & Ef)].
  - unfold fetch32, uload32 in E. rewrite Ed in E. injection E as <- <-. auto.
  - unfold fetch32, uload32 in E. congruence.
Qed.

Lemma load8_Ok p i c t :
  load8 p i = Ok c t -> (exists d, byte_at p i = Some d) /\ 0 <= c < 256 /\ t = [].
Proof.
  intros E. destruct (load8_cases p i) as [(d & Hd & Ed) | (_ & Ef)].
  - rewrite Ed in E. injection E as <- <-. pose proof (byte_value_range d). eauto.
  - congruence.
Qed.

Lemma byte_value_inj c d :
  Z.of_N (Strings.Byte.to_N c) = Z.of_N (Strings.Byte.to_N d) -> c = d.
Proof.
  intros H. apply N2Z.inj in H.
  pose proof (Strings.Byte.of_to_N c) as Hc.
  pose proof (Strings.Byte.of_to_N d) as Hd.
  rewrite H in Hc. congruence.
Qed.

Lemma load_le_inj n : forall p q c t t',
  load_le n p = Ok c t -> load_le n q = Ok c t' -> same_bytes p q (Z.of_nat n).
Proof.
  induction n as [| n IH]; intros p q c t t' Ep Eq; [intros i Hi; lia |].
  cbn [load_le] in Ep, Eq.
  destruct (load8_cases p 0) as [(a & Ha & Ea) | (_ & Ea)]; rewrite Ea in Ep;
    [| discriminate Ep].
  destruct (load8_cases q 0) as [(b & Hb & Eb) | (_ & Eb)]; rewrite Eb in Eq;
    [| discriminate Eq].
  destruct (load_le_cases n (p +p 1)) as [(_ & r & Er & Hr) | (_ & Er)];
    rewrite Er in Ep; [| discriminate Ep].
  destruct (load_le_cases n (q +p 1)) as [(_ & r' & Er' & Hr') | (_ & Er')];
    rewrite Er' in Eq; [| discriminate Eq].
  cbn [bind ret app] in Ep, Eq.
  apply Ok_inj in Ep. destruct Ep as [Ec _].
  apply Ok_inj in Eq. destruct Eq as [Ec' _].
  pose proof (byte_value_range a). pose proof (byte_value_range b).
  assert (Hab : a = b) by (apply byte_value_inj; lia).
  assert (Hrr : r = r') by lia. subst b r'.
  specialize (IH _ _ _ _ _ Er Er').
  intros i Hi. destruct (Z.eq_dec i 0) as [-> | Hne]; [eauto |].
  destruct (IH (i - 1) ltac:(lia)) as (d & Hd1 & Hd2).
  rewrite byte_at_padd in Hd1, Hd2.
  replace (1 + (i - 1)) with i in Hd1, Hd2 by lia. eauto.
Qed.

(** X2.  The value [fetch64] returns determines the 8 bytes it read: two
    loads that return the same value read the same bytes (and likewise for
    the 4 bytes of [fetch32]). *)
Theorem fetch_injective p q c c' :
  (fetch64 p = Ok c [] -> fetch64 q = Ok c [] -> same_bytes p q 8)
  /\ (fetch32 p = Ok c' [] -> fetch32 q = Ok c' [] -> same_bytes p q 4).
Proof.
  split; intros Ep Eq.
  - exact (load_le_inj 8 p q c [] [] Ep Eq).
  - exact (load_le_inj 4 p q c' [] [] Ep Eq).
Qed.

(** ** Bits of 64-bit values *)

Lemma high_bits_zero n i : 0 <= n < 2 ^ 64 -> 64 <= i -> Z.testbit n i = false.
Proof.
  intros Hn Hi. destruct (Z.eq_dec n 0) as [-> | Hnz]; [apply Z.bits_0 |].
  apply Z.bits_above_log2; [lia |].
  apply Z.lt_le_trans with 64; [| lia]. apply Z.log2_lt_pow2; lia.
Qed.

Lemma bits_inj_64 m n :
  0 <= m < 2 ^ 64 -> 0 <= n < 2 ^ 64 ->
  (forall i, 0 <= i < 64 -> Z.testbit m i = Z.testbit n i) -> m = n.
Proof.
  intros Hm Hn H. apply Z.bits_inj'. intros i Hi.
  destruct (Z_lt_le_dec i 64); [apply H; lia |].
  rewrite !high_bits_zero by lia. reflexivity.
Qed.

Lemma lxor_range m n : is_u64 m -> is_u64 n -> is_u64 (m ^% n).
Proof.
  unfold is_u64. intros Hm Hn.
  assert (H0 : 0 <= Z.lxor m n) by (apply Z.lxor_nonneg; lia).
  split; [assumption |].
  destruct (Z.eq_dec (Z.lxor m n) 0) as [E | E]; [rewrite E; lia |].
  apply Z.log2_lt_pow2; [lia |].
  apply Z.le_lt_trans with (Z.max (Z.log2 m) (Z.log2 n));
    [apply Z.log2_lxor; lia |].
  apply Z.max_lub_lt.
  - destruct (Z.eq_dec m 0) as [-> | ?]; [simpl; lia | apply Z.log2_lt_pow2; lia].
  - destruct (Z.eq_dec n 0) as [-> | ?]; [simpl; lia | apply Z.log2_lt_pow2; lia].
Qed.

Lemma wrap64_range n : is_u64 (wrap64 n).
Proof. unfold is_u64, wrap64. apply Z.mod_pos_bound. lia. Qed.

Lemma ror64_ror64_bits val j k i :
  0 <= val < 2 ^ 64 -> 0 < j < 64 -> 0 < k < 64 -> 0 <= i < 64 ->
  Z.testbit (ror64 (ror64 val j) k) i = Z.testbit val ((i + (j + k)) mod 64).
Proof.
  intros Hv Hj Hk Hi.
  rewrite ror64_bits by (try apply ror64_range; lia).
  rewrite ror64_bits by (try apply Z.mod_pos_bound; lia).
  rewrite Z.add_mod_idemp_l by lia. f_equal. f_equal. lia.
Qed.

(** X3.  Rotations compose and undo each other: for a 64-bit value and every
    [0 < j < 64], rotating right by [j] and then by [64 - j] gives the value
    back, and rotating by [j] and then by any [k > 0] with [j + k < 64] is
    the rotation by [j + k]. *)
Theorem rotate64_round_trip val j :
  0 <= val < 2 ^ 64 -> 0 < j < 64 ->
  value (r <- rotate64 val j ;; rotate64 r (64 - j)) = Some val
  /\ (forall k, 0 < k -> j + k < 64 ->
      value (r <- rotate64 val j ;; rotate64 r k) = value (rotate64 val (j + k))).
Proof.
  intros Hv Hj. split.
  - rewrite !rotate64_ok by lia. cbn [bind].
    rewrite !rotate64_ok by lia. cbn [value]. f_equal.
    apply bits_inj_64; [repeat apply ror64_range; lia | lia |].
    intros i Hi. rewrite ror64_ror64_bits by lia.
    replace (i + (j + (64 - j))) with (i + 1 * 64) by lia.
    rewrite Z.mod_add by lia. rewrite Z.mod_small by lia. reflexivity.
  - intros k Hk Hjk.
    rewrite !rotate64_ok by lia. cbn [bind].
    rewrite !rotate64_ok by lia. cbn [value]. f_equal.
    apply bits_inj_64; [repeat apply ror64_range; lia | apply ror64_range; lia |].
    intros i Hi. rewrite ror64_ror64_bits by lia.
    rewrite ror64_bits by lia. reflexivity.
Qed.

Lemma smix_twice val :
  0 <= val < 2 ^ 64 -> 0 <= smix val < 2 ^ 64 /\ smix (smix val) = val.
Proof.
  intros Hv.
  assert (Hs : 0 <= shr64 val 47 < 2 ^ 64).
  { unfold shr64. rewrite Z.shiftr_div_pow2 by lia. split.
    - apply Z.div_pos; lia.
    - apply Z.le_lt_trans with val; [| lia].
      apply Z.div_le_upper_bound; lia. }
  assert (Hr : 0 <= smix val < 2 ^ 64) by (apply lxor_range; assumption).
  split; [exact Hr |].
  apply Z.bits_inj'. intros i Hi. unfold smix, shr64.
  rewrite !Z.lxor_spec, !Z.shiftr_spec, Z.lxor_spec, Z.shiftr_spec by lia.
  rewrite (high_bits_zero val (i + 47 + 47)) by lia.
  destruct (Z.testbit val i), (Z.testbit val (i + 47)); reflexivity.
Qed.

(** X4.  [smix] maps 64-bit values to 64-bit values and is its own inverse
    there, hence a bijection of the 64-bit values. *)
Theorem smix_involution val :
  0 <= val < 2 ^ 64 -> 0 <= smix val < 2 ^ 64 /\ smix (smix val) = val.
Proof. apply smix_twice. Qed.

(** ** The 32-byte helper *)

Lemma weak_hash_32_with_seeds_ok w x y z a b :
  exists lane_b,
    weak_hash_32_with_seeds w x y z a b =
    Ok (mk128 ((a + w + x + y + z) mod 2 ^ 64) lane_b) [21; 44].
Proof.
  unfold weak_hash_32_with_seeds. cbv zeta.
  rewrite (rotate64_ok _ 21) by lia. cbn [bind].
  rewrite (rotate64_ok _ 44) by lia. cbn [bind ret app].
  eexists. f_equal. f_equal.
  unfold add64, wrap64.
  rewrite Z.add_mod_idemp_l by lia.
  rewrite <- (Z.add_assoc _ y z), Z.add_mod_idemp_l by lia.
  rewrite <- (Z.add_assoc _ x (y + z)), Z.add_mod_idemp_l by lia.
  f_equal. lia.
Qed.

(** X5.  [weak_hash_32_with_seeds] never faults; it rotates by 21 and by 44;
    its first lane is the sum [a + w + x + y + z] modulo 2^64, whatever the
    seed [b]. *)
Theorem weak_hash_32_with_seeds_first_lane w x y z a b :
  exists lane_b,
    weak_hash_32_with_seeds w x y z a b =
    Ok (mk128 ((a + w + x + y + z) mod 2 ^ 64) lane_b) [21; 44].
Proof. apply weak_hash_32_with_seeds_ok. Qed.

(** ** The register swap *)

Lemma store_set_same m a val : store_set m a val a = val.
Proof. unfold store_set. rewrite Nat.eqb_refl. reflexivity. Qed.

Lemma store_set_other m a val r : r <> a -> store_set m a val r = m r.
Proof.
  intros H. unfold store_set.
  destruct (Nat.eqb_spec r a); [contradiction | reflexivity].
Qed.

Lemma swap64_spec m a b r :
  swap64 m a b r = if Nat.eqb r b then m a else if Nat.eqb r a then m b else m r.
Proof.
  unfold swap64, store_set. destruct (Nat.eqb_spec r b), (Nat.eqb_spec r a);
    reflexivity.
Qed.

(** X6.  [swap64] exchanges the two cells and touches no other cell; when
    both pointers are the same cell it changes nothing; doing it twice
    restores the store.  [PERMUTE3_64] on three distinct cells moves [c] to
    [a], [a] to [b] and [b] to [c], so three applications restore the
    store. *)
Theorem swap64_permute3 (m : store) (a b c r : nat) :
  swap64 m a b a = m b /\ swap64 m a b b = m a
  /\ (r <> a -> r <> b -> swap64 m a b r = m r)
  /\ swap64 m a a r = m r
  /\ swap64 (swap64 m a b) a b r = m r
  /\ (a <> b -> b <> c -> a <> c ->
      PERMUTE3_64 m a b c a = m c /\ PERMUTE3_64 m a b c b = m a /\
      PERMUTE3_64 m a b c c = m b /\
      PERMUTE3_64 (PERMUTE3_64 (PERMUTE3_64 m a b c) a b c) a b c r = m r).
Proof.
  unfold PERMUTE3_64. cbv zeta.
  repeat split; intros; rewrite ?swap64_spec;
    repeat match goal with
           | |- context [Nat.eqb ?u ?v] => destruct (Nat.eqb_spec u v)
           end; subst; try congruence; try reflexivity.
Qed.

(** ** Contracts of runs *)

Lemma bind_ret_l {A B} (a : A) (k : A -> M B) : bind (ret a) k = k a.
Proof. simpl. destruct (k a); reflexivity. Qed.

Lemma bind_assoc {A B C} (m : M A) (k : A -> M B) (h : B -> M C) :
  bind (bind m k) h = bind m (fun a => bind (k a) h).
Proof.
  destruct m as [a t |]; simpl; [| reflexivity].
  destruct (k a) as [b t' |]; simpl; [| reflexivity].
  destruct (h b); simpl; [rewrite app_assoc |]; reflexivity.
Qed.

Lemma contract_bind {A B} P1 P2 (Q1 : A -> Prop) (Q2 : B -> Prop) m k :
  run_contract P1 Q1 m ->
  (forall a, Q1 a -> run_contract P2 Q2 (k a)) ->
  run_contract (P1 /\ P2) Q2 (bind m k).
Proof.
  intros Hm Hk. destruct m as [a t | e]; simpl in *; [| assumption].
  destruct Hm as [HP HQ]. specialize (Hk a HQ).
  destruct (k a); simpl in *; tauto.
Qed.

Lemma contract_pre {A} (P P' : Prop) (Q : A -> Prop) m :
  run_contract P Q m -> (P -> P') -> run_contract P' Q m.
Proof. destruct m; simpl; tauto. Qed.

Lemma contract_post {A} (P : Prop) (Q Q' : A -> Prop) m :
  run_contract P Q m -> (forall a, Q a -> Q' a) -> run_contract P Q' m.
Proof. destruct m; simpl; [intros [HP HQ] Himp; auto | auto]. Qed.

Lemma contract_ret {A} (Q : A -> Prop) a : Q a -> run_contract True Q (ret a).
Proof. simpl; auto. Qed.

Lemma contract_fetch64 p : run_contract (readable p 8) is_u64 (fetch64 p).
Proof.
  destruct (load_le_cases 8 p) as [(Hr & c & E & Hc) | (_ & E)];
    unfold fetch64, uload64; rewrite E; simpl; auto.
Qed.

Lemma contract_fetch32 p :
  run_contract (readable p 4) (fun c => 0 <= c < 2 ^ 32) (fetch32 p).
Proof.
  destruct (load_le_cases 4 p) as [(Hr & c & E & Hc) | (_ & E)];
    unfold fetch32, uload32; rewrite E; simpl; auto.
Qed.

Lemma contract_load8 p i :
  run_contract (readable (p +p i) 1) (fun c => 0 <= c < 256) (load8 p i).
Proof.
  destruct (load8_cases p i) as [(c & Hc & E) | (_ & E)]; rewrite E; simpl; auto.
  split; [| apply byte_value_range].
  intros j Hj. rewrite byte_at_padd. replace (i + j) with i by lia. eauto.
Qed.

Lemma contract_rotate64 val shift :
  0 < shift < 64 -> run_contract True (fun _ => True) (rotate64 val shift).
Proof. intros H. rewrite rotate64_ok by assumption. simpl; auto. Qed.

Lemma contract_cases {A} (P : Prop) (Q : A -> Prop) (m : M A) :
  run_contract P Q m -> (P -> returns m) -> exact_contract P Q m.
Proof.
  intros Hc Hr. destruct m as [a t | e]; simpl in Hc.
  - left. destruct Hc; eauto.
  - right. subst e. split; [| reflexivity].
    intros HP. destruct (Hr HP) as (a & t & E). discriminate E.
Qed.

Lemma readable_at p k m i :
  readable (p +p k) m -> k <= i < k + m ->
  exists c, byte_at p i = Some c /\ byte_at p i = Some c.
Proof.
  intros H Hi. destruct (H (i - k) ltac:(lia)) as (c & Hc & _).
  rewrite byte_at_padd in Hc. replace (k + (i - k)) with i in Hc by lia. eauto.
Qed.

Lemma in_range_dec k m i : {k <= i < k + m} + {i < k \/ k + m <= i}.
Proof.
  destruct (Z_lt_le_dec i k); [right; lia |].
  destruct (Z_lt_le_dec i (k + m)); [left; lia | right; lia].
Qed.

(** The bytes at index [i] from [p] are inside one of the regions known to
    be addressable. *)
Ltac cover i :=
  repeat match goal with
         | H : readable (?p +p ?k) ?m |- _ =>
             destruct (in_range_dec k m i) as [? | ?];
             [solve [eapply readable_at; [exact H | lia]] | clear H]
         | H : readable ?p ?m |- _ =>
             destruct (in_range_dec 0 m i) as [? | ?];
             [solve [apply H; lia] | clear H]
         end;
  exfalso; lia.

Ltac split_footprint H :=
  repeat match type of H with
         | _ /\ _ => let H1 := fresh "Hfp" in destruct H as [H1 H]
         end;
  rewrite ?padd_padd in *.

Ltac contract_prim :=
  lazymatch goal with
  | |- run_contract _ _ (bind (rotate64 _ _) _) =>
      eapply contract_bind;
      [apply contract_rotate64; lia | intros ? _; cbv beta iota zeta]
  | |- run_contract _ _ (bind (fetch64 _) _) =>
      eapply contract_bind; [apply contract_fetch64 | intros ? ?; cbv beta iota zeta]
  | |- run_contract _ _ (bind (fetch32 _) _) =>
      eapply contract_bind; [apply contract_fetch32 | intros ? ?; cbv beta iota zeta]
  | |- run_contract _ _ (bind (load8 _ _) _) =>
      eapply contract_bind; [apply contract_load8 | intros ? ?; cbv beta iota zeta]
  | |- run_contract _ _ (ret _) => apply contract_ret
  end.

Lemma contract_weak_hash_32_with_seeds w x y z a b :
  run_contract True (fun _ => True) (weak_hash_32_with_seeds w x y z a b).
Proof.
  destruct (weak_hash_32_with_seeds_ok w x y z a b) as (l & E).
  rewrite E. simpl; auto.
Qed.

Lemma contract_weak_hash_32_with_seeds_raw p a b :
  run_contract (readable p 32) (fun _ => True) (weak_hash_32_with_seeds_raw p a b).
Proof.
  unfold weak_hash_32_with_seeds_raw. eapply contract_pre.
  - repeat contract_prim. apply contract_weak_hash_32_with_seeds.
  - intros HP. split_footprint HP. intros i Hi. cover i.
Qed.

Ltac contract_steps :=
  cbv beta iota zeta;
  repeat first
    [ contract_prim
    | lazymatch goal with
      | |- run_contract _ _ (bind (weak_hash_32_with_seeds_raw _ _ _) _) =>
          eapply contract_bind;
          [apply contract_weak_hash_32_with_seeds_raw
          | intros ? _; cbv beta iota zeta]
      end ].

Lemma contract_mix_block p st :
  run_contract (readable p 64) (fun _ => True) (mix_block p st).
Proof.
  destruct st as [x y z v w]. unfold mix_block. eapply contract_pre.
  - contract_steps. exact I.
  - intros HP. split_footprint HP. intros i Hi. cover i.
Qed.

Lemma contract_front_blocks n : forall p st,
  run_contract (readable p (64 * Z.of_nat n)) (fun _ => True) (front_blocks n p st).
Proof.
  induction n as [| n IH]; intros p st; cbn [front_blocks].
  - simpl. split; [intros i Hi; lia | exact I].
  - eapply contract_pre.
    + eapply contract_bind; [apply contract_mix_block | intros st' _; apply IH].
    + intros HP. split_footprint HP. intros i Hi. cover i.
Qed.

Lemma contract_cityhash64_init p len :
  run_contract (readable p 8 /\ readable (p +p (len - 64)) 64) (fun _ => True)
               (cityhash64_init p len).
Proof.
  unfold cityhash64_init. eapply contract_pre.
  - contract_steps. exact I.
  - intros HP. split_footprint HP. split.
    + intros i Hi. cover i.
    + intros i Hi. rewrite byte_at_padd. cover (len - 64 + i).
Qed.

Lemma contract_hash_33_to_64 p len :
  32 <= len <= 64 ->
  run_contract (readable p len) is_u64 (hash_33_to_64 p len).
Proof.
  intros Hlen. unfold hash_33_to_64. eapply contract_pre.
  - contract_steps. apply wrap64_range.
  - intros HP. split_footprint HP. intros i Hi. cover i.
Qed.

Lemma alike_self_returns {A} (m : M A) : runs_alike m m -> returns m.
Proof. intros (a & _ & t & E & _); exists a, t; exact E. Qed.

Section Contracts.

Variable hash_128_to_64 : uint128_t -> Z.

Lemma contract_hash_0_to_16 p len :
  0 <= len <= 16 ->
  run_contract (readable p len) (u64_given hash_128_to_64)
               (hash_0_to_16 hash_128_to_64 p len).
Proof.
  intros Hlen. unfold hash_0_to_16.
  destruct (Z.ltb_spec 8 len).
  { eapply contract_pre.
    - contract_steps. intros HH. apply lxor_range; [apply HH | assumption].
    - intros HP. split_footprint HP. intros i Hi. cover i. }
  destruct (Z.leb_spec 4 len).
  { eapply contract_pre.
    - contract_steps. intros HH. apply HH.
    - intros HP. split_footprint HP. intros i Hi. cover i. }
  destruct (Z.ltb_spec 0 len).
  { eapply contract_pre.
    - contract_steps. intros _. apply wrap64_range.
    - intros HP. split_footprint HP. intros i Hi.
      assert (Hc : len = 1 \/ len = 2 \/ len = 3) by lia.
      destruct Hc as [-> | [-> | ->]];
        [change (shr64 1 1) with 0 in * | change (shr64 2 1) with 1 in *
        | change (shr64 3 1) with 1 in *]; cover i. }
  simpl. split; [intros i Hi; lia |]. intros _. unfold is_u64, k2. lia.
Qed.

Lemma contract_hash_17_to_32 p len :
  16 <= len <= 32 ->
  run_contract (readable p len) (u64_given hash_128_to_64)
               (hash_17_to_32 hash_128_to_64 p len).
Proof.
  intros Hlen. unfold hash_17_to_32. eapply contract_pre.
  - contract_steps. intros HH. apply HH.
  - intros HP. split_footprint HP. intros i Hi. cover i.
Qed.

Lemma contract_cityhash64 p len :
  0 <= len < 2 ^ 64 ->
  run_contract (readable p len) (u64_given hash_128_to_64)
               (cityhash64 hash_128_to_64 p len).
Proof.
  intros Hlen. unfold cityhash64.
  destruct (Z.leb_spec len 32).
  { destruct (Z.leb_spec len 16).
    - apply contract_hash_0_to_16; lia.
    - apply contract_hash_17_to_32; lia. }
  destruct (Z.leb_spec len 64).
  { eapply contract_post; [apply contract_hash_33_to_64; lia |].
    intros h Hh _; exact Hh. }
  cbv zeta. rewrite truncated_len_div by lia.
  assert (Hq : 1 <= (len - 1) / 64) by (apply Z.div_le_lower_bound; lia).
  assert (Hm : 64 * ((len - 1) / 64) <= len - 1) by (apply Z.mul_div_le; lia).
  assert (Hr : len - 1 < 64 * ((len - 1) / 64) + 64).
  { pose proof (Z.mul_succ_div_gt (len - 1) 64); lia. }
  rewrite <- (Z2Nat.id ((len - 1) / 64)) in * by lia.
  eapply contract_pre.
  - eapply contract_bind; [apply contract_cityhash64_init | intros st _].
    rewrite cityhash64_loop_front_blocks by lia.
    eapply contract_bind; [apply contract_front_blocks | intros st' _].
    apply contract_ret. intros HH. destruct st'. apply HH.
  - intros HP. split_footprint HP. destruct Hfp as [Hfp Hfp1].
    intros i Hi. cover i.
Qed.

Lemma contract_cityhash64_with_seeds p len seed0 seed1 :
  0 <= len < 2 ^ 64 ->
  run_contract (readable p len) (u64_given hash_128_to_64)
               (cityhash64_with_seeds hash_128_to_64 p len seed0 seed1).
Proof.
  intros Hlen. unfold cityhash64_with_seeds. eapply contract_pre.
  - eapply contract_bind; [apply contract_cityhash64; assumption | intros h _].
    apply contract_ret. intros HH. apply HH.
  - tauto.
Qed.

(** X7.  The two outcomes of the 64-bit entry points.  For every
    pointer and every length [0 <= len < 2^64], either the [len] bytes at
    the pointer are all addressable and the call returns (a 64-bit value,
    when [hash_128_to_64] returns 64-bit values), or some of them is not and
    the call is an out-of-bounds read: no assertion fails, no shift is
    undefined and no loop bound is exhausted. *)
Theorem cityhash64_exact_contract s len seed0 seed1 :
  0 <= len < 2 ^ 64 ->
  exact_contract (readable s len) (u64_given hash_128_to_64)
                 (cityhash64 hash_128_to_64 s len)
  /\ exact_contract (readable s len) (u64_given hash_128_to_64)
                    (cityhash64_with_seed hash_128_to_64 s len seed1)
  /\ exact_contract (readable s len) (u64_given hash_128_to_64)
                    (cityhash64_with_seeds hash_128_to_64 s len seed0 seed1).
Proof.
  intros Hlen. repeat split.
  - apply contract_cases; [apply contract_cityhash64; assumption |].
    intros Hr. apply alike_self_returns, alike_cityhash64; assumption.
  - apply contract_cases; [apply contract_cityhash64_with_seeds; assumption |].
    intros Hr. apply alike_self_returns, alike_cityhash64_with_seeds; assumption.
  - apply contract_cases; [apply contract_cityhash64_with_seeds; assumption |].
    intros Hr. apply alike_self_returns, alike_cityhash64_with_seeds; assumption.
Qed.

End Contracts.

(** ** The loops of the 128-bit hash *)

Lemma bind_bind_ret {A B C} (m : M A) (f : A -> B) (k : B -> M C) :
  bind (bind m (fun a => ret (f a))) k = bind m (fun a => k (f a)).
Proof.
  rewrite bind_assoc. apply bind_ext. intros a. apply bind_ret_l.
Qed.

Lemma cityhash128_loop_unrolled fuel : forall len s st,
  128 <= len < 2 ^ 64 -> len <= Z.of_nat fuel ->
  cityhash128_loop fuel s len st =
    (st' <- front_blocks (2 * Z.to_nat (len / 128)) s st ;;
     ret (s +p 128 * (len / 128), len mod 128, st')).
Proof.
  induction fuel as [| fuel IH]; intros len s st Hlen Hf; [lia |].
  pose proof (Z.div_mod len 128 ltac:(lia)) as Hdm.
  pose proof (Z.mod_pos_bound len 128 ltac:(lia)) as Hmb.
  assert (Hq : 1 <= len / 128) by (apply Z.div_le_lower_bound; lia).
  cbn [cityhash128_loop]. cbv zeta. rewrite sub64_small by lia.
  replace (2 * Z.to_nat (len / 128))%nat
    with (S (S (2 * Z.to_nat (len / 128 - 1)))) by lia.
  cbn [front_blocks]. rewrite !bind_assoc.
  apply bind_ext; intros st1. rewrite bind_assoc.
  apply bind_ext; intros st2. rewrite !padd_padd. change (64 + 64) with 128.
  destruct (Z.leb_spec 128 (len - 128)).
  - rewrite IH by lia.
    assert (Hd : (len - 128) / 128 = len / 128 - 1)
      by (symmetry; apply Z.div_unique with (len mod 128); lia).
    assert (Hmd : (len - 128) mod 128 = len mod 128)
      by (symmetry; apply Z.mod_unique with (len / 128 - 1); lia).
    rewrite Hd, Hmd, padd_padd.
    replace (128 + 128 * (len / 128 - 1)) with (128 * (len / 128)) by lia.
    reflexivity.
  - assert (Hd : len / 128 = 1) by lia.
    rewrite Hd. change (2 * Z.to_nat (1 - 1))%nat with 0%nat.
    cbn [front_blocks]. rewrite bind_ret_l.
    replace (len mod 128) with (len - 128) by lia. reflexivity.
Qed.

(** X8.  The main loop of [cityhash128_with_seed] is the block step of
    [cityhash64] run over [2 * (len / 128)] consecutive 64-byte chunks from
    the front; it leaves the pointer [128 * (len / 128)] bytes further and
    [len mod 128] bytes for the tail, and never exhausts its bound. *)
Theorem cityhash128_loop_is_front_blocks s len st :
  128 <= len < 2 ^ 64 ->
  cityhash128_loop (Z.to_nat len) s len st =
    (st' <- front_blocks (2 * Z.to_nat (len / 128)) s st ;;
     ret (s +p 128 * (len / 128), len mod 128, st')).
Proof. intros H. apply cityhash128_loop_unrolled; lia. Qed.

Lemma contract_cityhash128_loop p len st :
  128 <= len < 2 ^ 64 ->
  run_contract (readable p (128 * (len / 128)))
    (fun r => exists st', r = (p +p 128 * (len / 128), len mod 128, st'))
    (cityhash128_loop (Z.to_nat len) p len st).
Proof.
  intros Hlen. rewrite cityhash128_loop_unrolled by lia.
  assert (Hq : 0 <= len / 128) by (apply Z.div_pos; lia).
  eapply contract_pre.
  - eapply contract_bind; [apply contract_front_blocks | intros st' _].
    apply contract_ret. eauto.
  - intros [HP _]. eapply same_bytes_le; [exact HP | lia].
Qed.

Lemma contract_cityhash128_tail fuel : forall p k len td st,
  0 <= td -> len < 2 ^ 63 -> len - td <= Z.of_nat fuel ->
  run_contract (readable (p +p k) (len - td)) (fun _ => True)
               (cityhash128_tail fuel (p +p k) len td st).
Proof.
  induction fuel as [| fuel IH]; intros p k len td st Htd Hlen Hf;
    cbn [cityhash128_tail]; destruct (Z.ltb_spec td len);
    try (apply contract_pre with (P := True);
         [apply contract_ret; exact I | intros _ i Hi; lia]); [lia |].
  destruct st as [x y z v w]. cbv zeta. rewrite add64_small by lia.
  eapply contract_pre.
  - contract_steps. apply IH; lia.
  - intros HP. split_footprint HP. intros i Hi. rewrite byte_at_padd.
    cover (k + i).
Qed.

Lemma contract_city_murmur_loop fuel : forall l p quad,
  0 < l <= Z.of_nat fuel ->
  run_contract (readable p l) (fun _ => True) (city_murmur_loop fuel p l quad).
Proof.
  induction fuel as [| fuel IH]; intros l p quad Hl; [lia |].
  destruct quad as [[[a b] c] d]. cbn [city_murmur_loop].
  destruct (Z.ltb_spec 0 (l - 16)).
  - eapply contract_pre.
    + contract_steps. apply IH; lia.
    + intros HP. split_footprint HP. intros i Hi. cover i.
  - eapply contract_pre.
    + contract_steps. exact I.
    + intros HP. split_footprint HP. intros i Hi. cover i.
Qed.

(** Straight-line code with nested sequencing. *)
Ltac contract_flat :=
  cbv beta iota zeta;
  repeat first
    [ contract_prim
    | lazymatch goal with
      | |- run_contract _ _ (bind (weak_hash_32_with_seeds_raw _ _ _) _) =>
          eapply contract_bind;
          [apply contract_weak_hash_32_with_seeds_raw
          | intros ? _; cbv beta iota zeta]
      | |- run_contract _ _ (bind (bind _ _) _) => rewrite bind_assoc
      | |- run_contract _ _ (bind (ret _) _) =>
          rewrite bind_ret_l; cbv beta iota zeta
      end ].

Section Contracts128.

Variable hash_128_to_64 : uint128_t -> Z.

Lemma contract_city_murmur p len seed :
  0 <= len < 128 ->
  run_contract (readable p len) (u128_given hash_128_to_64)
               (city_murmur hash_128_to_64 p len seed).
Proof.
  intros Hlen. unfold city_murmur. cbv zeta.
  rewrite to_signed64_sub16 by lia.
  assert (Hout : forall a b c d,
            u128_given hash_128_to_64
              (mk128 (hash_16 hash_128_to_64 a c ^% hash_16 hash_128_to_64 d b)
                     (hash_16 hash_128_to_64 (hash_16 hash_128_to_64 d b)
                                             (hash_16 hash_128_to_64 a c)))).
  { intros a b c d HH. split; [apply lxor_range; apply HH | apply HH]. }
  destruct (Z.leb_spec (len - 16) 0).
  - rewrite bind_assoc.
    destruct (Z.leb_spec 8 len).
    + eapply contract_pre.
      * eapply contract_bind; [apply contract_hash_0_to_16; lia | intros h _].
        contract_flat. apply Hout.
      * intros [HP _]. exact HP.
    + eapply contract_pre.
      * eapply contract_bind; [apply contract_hash_0_to_16; lia | intros h _].
        contract_flat. apply Hout.
      * intros [HP _]. exact HP.
  - eapply contract_pre.
    + contract_flat.
      eapply contract_bind; [apply contract_city_murmur_loop; lia |].
      intros [[[a' b'] c'] d'] _. apply contract_ret. apply Hout.
    + intros HP. split_footprint HP. intros i Hi. cover i.
Qed.

Lemma contract_cityhash128_with_seed p len seed :
  0 <= len < 2 ^ 64 ->
  run_contract (readable p len) (u128_given hash_128_to_64)
               (cityhash128_with_seed hash_128_to_64 p len seed).
Proof.
  intros Hlen. unfold cityhash128_with_seed.
  destruct (Z.ltb_spec len 128); [apply contract_city_murmur; lia |].
  pose proof (Z.div_mod len 128 ltac:(lia)) as Hdm.
  pose proof (Z.mod_pos_bound len 128 ltac:(lia)) as Hmb.
  eapply contract_pre.
  - contract_flat.
    eapply contract_bind; [apply contract_cityhash128_loop; lia |].
    intros r (st' & ->). destruct st' as [x y z v w]. contract_flat.
    eapply contract_bind; [apply contract_cityhash128_tail; lia |].
    intros [x' y' z' v' w'] _. apply contract_ret.
    intros HH. split; apply wrap64_range || apply HH.
  - intros HP. split_footprint HP. rewrite Z.sub_0_r in *.
    intros i Hi. cover i.
Qed.

Lemma contract_cityhash128 p len :
  0 <= len < 2 ^ 64 ->
  run_contract (readable p len) (u128_given hash_128_to_64)
               (cityhash128 hash_128_to_64 p len).
Proof.
  intros Hlen. unfold cityhash128.
  destruct (Z.leb_spec 16 len).
  { eapply contract_pre.
    - contract_flat. apply contract_cityhash128_with_seed; lia.
    - intros HP. split_footprint HP. intros i Hi. cover i. }
  destruct (Z.leb_spec 8 len).
  { eapply contract_pre.
    - contract_flat. apply contract_cityhash128_with_seed; lia.
    - intros HP. split_footprint HP. intros i Hi. cover i. }
  apply contract_cityhash128_with_seed; lia.
Qed.

(** X9.  The two outcomes of the 128-bit entry points.  For every
    pointer and every length [0 <= len < 2^64], either the [len] bytes at
    the pointer are all addressable and the call returns (a pair of 64-bit
    lanes, when [hash_128_to_64] returns 64-bit values), or some of them is
    not and the call is an out-of-bounds read. *)
Theorem cityhash128_exact_contract s len seed :
  0 <= len < 2 ^ 64 ->
  exact_contract (readable s len) (u128_given hash_128_to_64)
                 (cityhash128 hash_128_to_64 s len)
  /\ exact_contract (readable s len) (u128_given hash_128_to_64)
                    (cityhash128_with_seed hash_128_to_64 s len seed).
Proof.
  intros Hlen. split.
  - apply contract_cases; [apply contract_cityhash128; assumption |].
    intros Hr. apply alike_self_returns, alike_cityhash128; assumption.
  - apply contract_cases; [apply contract_cityhash128_with_seed; assumption |].
    intros Hr. apply alike_self_returns, alike_cityhash128_with_seed; assumption.
Qed.

End Contracts128.

(** ** The SSE4.2 family *)

Lemma load_bytes_cases n : forall p,
  (readable p (Z.of_nat n) /\ exists l, load_bytes n p = Ok l [] /\ length l = n) \/
  (~ readable p (Z.of_nat n) /\ load_bytes n p = Fault OutOfBounds).
Proof.
  induction n as [| n IH]; intros p.
  - left. split; [intros i Hi; lia |]. exists []. split; reflexivity.
  - cbn [load_bytes]. destruct (byte_at p 0) as [c |] eqn:Hc.
    + destruct (IH (p +p 1)) as [(Hr & l & El & Hl) | (Hr & El)]; rewrite El.
      * left. split.
        { intros i Hi. destruct (Z.eq_dec i 0) as [-> | Hne]; [eauto |].
          destruct (Hr (i - 1) ltac:(lia)) as (d & Hd & _).
          rewrite byte_at_padd in Hd. replace (1 + (i - 1)) with i in Hd by lia.
          eauto. }
        exists (c :: l). split; [reflexivity | simpl; congruence].
      * right. split; [| reflexivity].
        intros H. apply Hr. eapply same_bytes_shift; [exact H | lia | lia].
    + right. split; [| reflexivity].
      intros H. destruct (H 0 ltac:(lia)) as (c & Hc' & _). congruence.
Qed.

Lemma contract_memcpy n p :
  run_contract (p <> NULL /\ readable p (Z.of_nat n)) (fun l => length l = n)
               (memcpy n p).
Proof.
  destruct p as [| mem off]; [reflexivity |]. cbn [memcpy].
  destruct (load_bytes_cases n (At mem off)) as [(Hr & l & E & Hl) | (_ & E)];
    rewrite E; simpl; auto.
  repeat split; [discriminate | assumption | assumption].
Qed.

Lemma readable_not_NULL p n : readable p n -> 0 < n -> p <> NULL.
Proof.
  intros H Hn. destruct (H 0 ltac:(lia)) as (c & Hc & _).
  intros ->. discriminate Hc.
Qed.

Lemma contract_cityhash256_crc_tail fuel : forall p k len td quad,
  0 <= td -> len < 2 ^ 63 -> len - td <= Z.of_nat fuel ->
  run_contract (readable (p +p k) (len - td)) (fun _ => True)
               (cityhash256_crc_tail fuel (p +p k) len td quad).
Proof.
  induction fuel as [| fuel IH]; intros p k len td quad Htd Hlen Hf;
    cbn [cityhash256_crc_tail]; destruct (Z.ltb_spec td len);
    try (apply contract_pre with (P := True);
         [apply contract_ret; exact I | intros _ i Hi; lia]); [lia |].
  destruct quad as [[[a c] d] v]. unfold Rotate, Fetch64.
  cbv zeta. rewrite add64_small by lia.
  eapply contract_pre.
  - contract_steps. apply IH; lia.
  - intros HP. split_footprint HP. intros i Hi. rewrite byte_at_padd.
    cover (k + i).
Qed.

Section ContractsCrc.

Variable hash_128_to_64 : uint128_t -> Z.
Variable _mm_crc32_u64 : Z -> Z -> Z.

Lemma contract_CHUNK multiplier z p st :
  z = 0 \/ z = 1 ->
  run_contract (readable p 40) (fun _ => True)
               (CHUNK _mm_crc32_u64 multiplier z p st).
Proof.
  intros Hz. destruct st. unfold CHUNK.
  destruct Hz as [-> | ->]; simpl (Z.lxor _ _); (eapply contract_pre;
    [contract_steps; exact I
    | intros HP; split_footprint HP; intros i Hi; cover i]).
Qed.

Lemma contract_cityhash256_crc_loop fuel : forall iters p st,
  1 <= iters < 2 ^ 64 -> iters <= Z.of_nat fuel ->
  run_contract (readable p (240 * iters)) (fun r => fst r = p +p 240 * iters)
               (cityhash256_crc_loop _mm_crc32_u64 fuel p iters st).
Proof.
  induction fuel as [| fuel IH]; intros iters p st Hi Hf; [lia |].
  cbn [cityhash256_crc_loop]. cbv zeta. rewrite sub64_small by lia.
  rewrite !padd_padd. simpl (40 + _).
  destruct (Z.ltb_spec 0 (iters - 1)).
  - eapply contract_pre.
    + do 6 (eapply contract_bind;
            [apply contract_CHUNK; auto | intros ? _; cbv beta]).
      eapply contract_post; [apply IH; lia |].
      intros [s' st'] Hs. cbn [fst] in *. rewrite Hs, padd_padd. f_equal. lia.
    + intros HP. split_footprint HP. intros i Hi'. cover i.
  - eapply contract_pre.
    + do 6 (eapply contract_bind;
            [apply contract_CHUNK; auto | intros ? _; cbv beta]).
      apply contract_ret. cbn [fst]. f_equal. lia.
    + intros HP. split_footprint HP. intros i Hi'. cover i.
Qed.

Lemma contract_cityhash256_crc_long p len seed :
  240 <= len < 2 ^ 64 ->
  run_contract (readable p len) (u256_given hash_128_to_64)
               (cityhash256_crc_long hash_128_to_64 _mm_crc32_u64 p len seed).
Proof.
  intros Hlen. unfold cityhash256_crc_long.
  assert (Hq : 1 <= len / 240) by (apply Z.div_le_lower_bound; lia).
  assert (Hm : 240 * (len / 240) <= len) by (apply Z.mul_div_le; lia).
  assert (Hr : len < 240 * (len / 240) + 240).
  { pose proof (Z.mul_succ_div_gt len 240); lia. }
  cbv zeta.
  replace (len / 240 *% 240) with (240 * (len / 240))
    by (unfold mul64; rewrite wrap64_small; lia).
  rewrite sub64_small by lia.
  eapply contract_pre.
  - contract_flat.
    eapply contract_bind; [apply contract_cityhash256_crc_loop; lia |].
    intros [s' st'] Hs. cbn [fst] in Hs. subst s'. destruct st'.
    cbv beta iota zeta.
    eapply contract_bind; [apply contract_cityhash256_crc_tail; lia |].
    intros [[[a' c'] d'] v'] _. apply contract_ret.
    intros HH. repeat split; apply wrap64_range.
  - intros HP. split_footprint HP. rewrite Z.sub_0_r in *.
    intros i Hi. cover i.
Qed.

Lemma contract_cityhash256_crc p len :
  0 <= len < 2 ^ 64 ->
  run_contract (p <> NULL /\ readable p len) (u256_given hash_128_to_64)
               (cityhash256_crc hash_128_to_64 _mm_crc32_u64 p len).
Proof.
  intros Hlen. unfold cityhash256_crc.
  destruct (Z.leb_spec 240 len).
  { eapply contract_pre; [apply contract_cityhash256_crc_long; lia |].
    intros HP. split; [apply (readable_not_NULL p len HP); lia | exact HP]. }
  unfold cityhash256_crc_short. eapply contract_pre.
  - eapply contract_bind; [apply contract_memcpy | intros l Hl; cbv zeta].
    eapply contract_pre; [apply contract_cityhash256_crc_long; lia |].
    intros _. exact I.
  - intros [[Hn HP] _]. rewrite Z2Nat.id in HP by lia. auto.
Qed.

Lemma contract_cityhash128_crc_with_seed p len seed :
  0 <= len < 2 ^ 64 ->
  run_contract (readable p len) (u128_given hash_128_to_64)
    (cityhash128_crc_with_seed hash_128_to_64 _mm_crc32_u64 p len seed).
Proof.
  intros Hlen. unfold cityhash128_crc_with_seed.
  destruct (Z.leb_spec len 900); [apply contract_cityhash128_with_seed; lia |].
  eapply contract_pre.
  - eapply contract_bind; [apply contract_cityhash256_crc; lia | intros hash _].
    contract_flat. intros HH. split; apply HH.
  - intros [[_ HP] _]. exact HP.
Qed.

Lemma contract_cityhash128_crc p len :
  0 <= len < 2 ^ 64 ->
  run_contract (readable p len) (u128_given hash_128_to_64)
    (cityhash128_crc hash_128_to_64 _mm_crc32_u64 p len).
Proof.
  intros Hlen. unfold cityhash128_crc.
  destruct (Z.leb_spec len 900); [apply contract_cityhash128; lia |].
  eapply contract_pre.
  - eapply contract_bind; [apply contract_cityhash256_crc; lia | intros hash Hh].
    apply contract_ret. intros HH. destruct (Hh HH) as (_ & _ & Hc & Hd).
    split; assumption.
  - intros [[_ HP] _]. exact HP.
Qed.

(** X10.  The two outcomes of the SSE4.2 entry points, with the tail helpers
    [Rotate] and [Fetch64] taken as [rotate64] and [fetch64], for any CRC
    instruction, every pointer and every length [0 <= len < 2^64].
    [cityhash256_crc]: either the pointer is not [NULL] and the [len] bytes
    are all addressable, and the call returns; or the call is undefined (a
    read outside the buffer, or [NULL] handed to [memcpy], as on a null
    buffer of length 0).  [cityhash128_crc] and [cityhash128_crc_with_seed]:
    either the [len] bytes are all addressable and the call returns, or the
    call is an out-of-bounds read.  The lanes returned are 64-bit values when
    [hash_128_to_64] returns 64-bit values. *)
Theorem cityhash_crc_exact_contract s len seed :
  0 <= len < 2 ^ 64 ->
  exact_contract (s <> NULL /\ readable s len) (u256_given hash_128_to_64)
                 (cityhash256_crc hash_128_to_64 _mm_crc32_u64 s len)
  /\ exact_contract (readable s len) (u128_given hash_128_to_64)
                    (cityhash128_crc hash_128_to_64 _mm_crc32_u64 s len)
  /\ exact_contract (readable s len) (u128_given hash_128_to_64)
       (cityhash128_crc_with_seed hash_128_to_64 _mm_crc32_u64 s len seed).
Proof.
  intros Hlen. repeat split.
  - apply contract_cases; [apply contract_cityhash256_crc; assumption |].
    intros [Hn Hr]. apply alike_self_returns, alike_cityhash256_crc; assumption.
  - apply contract_cases; [apply contract_cityhash128_crc; assumption |].
    intros Hr. apply alike_self_returns, alike_cityhash128_crc; assumption.
  - apply contract_cases; [apply contract_cityhash128_crc_with_seed; assumption |].
    intros Hr. apply alike_self_returns, alike_cityhash128_crc_with_seed; assumption.
Qed.

End ContractsCrc.

(** ** The further properties on concrete inputs *)

Lemma fetch_injective_witness :
  fetch64 buf12 = Ok 0x0706050403020100 [] /\
  fetch64 buf12_inside = Ok 0x0706050403020100 [] /\
  same_bytes buf12 buf12_inside 8.
Proof.
  assert (E1 : fetch64 buf12 = Ok 0x0706050403020100 []) by reflexivity.
  assert (E2 : fetch64 buf12_inside = Ok 0x0706050403020100 []) by reflexivity.
  split; [exact E1 |]. split; [exact E2 |].
  exact (proj1 (fetch_injective buf12 buf12_inside 0x0706050403020100 0) E1 E2).
Defined.

Lemma rotate64_round_trip_witness :
  0 <= 5 < 2 ^ 64 /\ 0 < 63 < 64 /\
  value (r <- rotate64 5 63 ;; rotate64 r (64 - 63)) = Some 5.
Proof.
  assert (H1 : 0 <= 5 < 2 ^ 64) by lia.
  assert (H2 : 0 < 63 < 64) by lia.
  split; [exact H1 |]. split; [exact H2 |].
  exact (proj1 (rotate64_round_trip 5 63 H1 H2)).
Defined.

Lemma smix_involution_witness :
  0 <= k0 < 2 ^ 64 /\ smix (smix k0) = k0.
Proof.
  assert (H : 0 <= k0 < 2 ^ 64) by (unfold k0; lia).
  split; [exact H | exact (proj2 (smix_involution k0 H))].
Defined.

Lemma swap64_permute3_witness :
  (0 <> 1 /\ 1 <> 2 /\ 0 <> 2)%nat /\
  PERMUTE3_64 store0 0 1 2 0%nat = store0 2%nat /\
  PERMUTE3_64 store0 0 1 2 1%nat = store0 0%nat /\
  PERMUTE3_64 store0 0 1 2 2%nat = store0 1%nat.
Proof.
  assert (H : (0 <> 1 /\ 1 <> 2 /\ 0 <> 2)%nat) by lia.
  split; [exact H |].
  destruct H as (H01 & H12 & H02).
  destruct (swap64_permute3 store0 0 1 2 0) as (_ & _ & _ & _ & _ & Hp).
  destruct (Hp H01 H12 H02) as (Ha & Hb & Hc & _).
  repeat split; assumption.
Defined.

Lemma cityhash64_exact_contract_witness :
  0 <= 12 < 2 ^ 64 /\
  exact_contract (readable buf12 12) (u64_given hash_128_to_64_ref)
                 (cityhash64 hash_128_to_64_ref buf12 12).
Proof.
  assert (H : 0 <= 12 < 2 ^ 64) by lia.
  split; [exact H |].
  exact (proj1 (cityhash64_exact_contract hash_128_to_64_ref buf12 12 0 0 H)).
Defined.

Lemma cityhash128_loop_is_front_blocks_witness :
  128 <= 300 < 2 ^ 64 /\
  cityhash128_loop (Z.to_nat 300) buf300 300 regs0 =
    (st' <- front_blocks (2 * Z.to_nat (300 / 128)) buf300 regs0 ;;
     ret (buf300 +p 128 * (300 / 128), 300 mod 128, st')).
Proof.
  assert (H : 128 <= 300 < 2 ^ 64) by lia.
  split; [exact H |].
  exact (cityhash128_loop_is_front_blocks buf300 300 regs0 H).
Defined.

Lemma cityhash128_exact_contract_witness :
  0 <= 300 < 2 ^ 64 /\
  exact_contract (readable buf300 300) (u128_given hash_128_to_64_ref)
                 (cityhash128 hash_128_to_64_ref buf300 300).
Proof.
  assert (H : 0 <= 300 < 2 ^ 64) by lia.
  split; [exact H |].
  exact (proj1 (cityhash128_exact_contract hash_128_to_64_ref buf300 300
                  (mk128 0 0) H)).
Defined.

Lemma cityhash_crc_exact_contract_witness :
  0 <= 960 < 2 ^ 64 /\
  exact_contract (buf960 <> NULL /\ readable buf960 960)
                 (u256_given hash_128_to_64_ref)
                 (cityhash256_crc hash_128_to_64_ref crc32c_u64 buf960 960).
Proof.
  assert (H : 0 <= 960 < 2 ^ 64) by lia.
  split; [exact H |].
  exact (proj1 (cityhash_crc_exact_contract hash_128_to_64_ref crc32c_u64
                  buf960 960 (mk128 0 0) H)).
Defined.

(** ** The mixing steps lose no information *)

Lemma mul64_inverse k kinv n :
  (k * kinv) mod 2 ^ 64 = 1 -> (n *% k) *% kinv = wrap64 n.
Proof.
  intros H. unfold mul64, wrap64.
  rewrite Z.mul_mod_idemp_l by lia.
  rewrite <- Z.mul_assoc, <- Z.mul_mod_idemp_r, H by lia.
  rewrite Z.mul_1_r. reflexivity.
Qed.

Lemma mul64_injective k kinv m n :
  (k * kinv) mod 2 ^ 64 = 1 -> is_u64 m -> is_u64 n ->
  m *% k = n *% k -> m = n.
Proof.
  intros H Hm Hn E. apply (f_equal (fun v => v *% kinv)) in E.
  rewrite !(mul64_inverse k kinv) in E by assumption.
  rewrite !wrap64_small in E by assumption. exact E.
Qed.

Lemma smix_injective m n : is_u64 m -> is_u64 n -> smix m = smix n -> m = n.
Proof.
  intros Hm Hn E. apply (f_equal smix) in E.
  destruct (smix_twice m Hm) as [_ Em].
  destruct (smix_twice n Hn) as [_ En]. congruence.
Qed.

(** X13.  The constants [k0 .. k3] are odd and lie between 2^63 and 2^64, so
    multiplying a 64-bit value by one of them modulo 2^64 loses nothing: the
    multiplication is injective.  Hence the word mixing of [city_murmur],
    [smix(c * k1) * k1], is injective on 64-bit words. *)
Theorem mixing_is_injective k m n :
  In k [k0; k1; k2; k3] -> is_u64 m -> is_u64 n ->
  (2 ^ 63 < k < 2 ^ 64 /\ Z.odd k = true)
  /\ (m *% k = n *% k -> m = n)
  /\ (smix (m *% k1) *% k1 = smix (n *% k1) *% k1 -> m = n).
Proof.
  intros Hk Hm Hn.
  assert (Hinv : exists kinv, (k * kinv) mod 2 ^ 64 = 1).
  { simpl in Hk. destruct Hk as [<- | [<- | [<- | [<- | []]]]].
    - exists 0x81bc9c5aa9c72e97. reflexivity.
    - exists 0x1ec3fe17279602bb. reflexivity.
    - exists 0xb5a360ae14bed6af. reflexivity.
    - exists 0xf35e575ec9565667. reflexivity. }
  destruct Hinv as (kinv & Hinv).
  split; [| split].
  - simpl in Hk. destruct Hk as [<- | [<- | [<- | [<- | []]]]];
      (split; [unfold k0, k1, k2, k3; lia | reflexivity]).
  - intros E. exact (mul64_injective k kinv m n Hinv Hm Hn E).
  - intros E.
    assert (H1 : (k1 * 0x1ec3fe17279602bb) mod 2 ^ 64 = 1) by reflexivity.
    apply (mul64_injective k1 _ _ _ H1) in E;
      [| apply smix_twice; apply wrap64_range
       | apply smix_twice; apply wrap64_range].
    apply smix_injective in E; [| apply wrap64_range | apply wrap64_range].
    exact (mul64_injective k1 _ m n H1 Hm Hn E).
Qed.

Lemma mixing_is_injective_witness :
  In k1 [k0; k1; k2; k3] /\ is_u64 5 /\ is_u64 5 /\
  2 ^ 63 < k1 < 2 ^ 64 /\ Z.odd k1 = true.
Proof.
  assert (Hk : In k1 [k0; k1; k2; k3]) by (simpl; tauto).
  assert (H5 : is_u64 5) by (unfold is_u64; lia).
  split; [exact Hk |]. split; [exact H5 |]. split; [exact H5 |].
  exact (proj1 (mixing_is_injective k1 5 5 Hk H5 H5)).
Defined.
